(** * The MindtPy outer-approximation iteration loop

    A shallow embedding of [pyomo/contrib/mindtpy/iterate.py]:
    [MindtPy_iteration_loop], [algorithm_should_terminate] and [bound_fix].

    Python floats are modelled by rationals [Q], Python ints by [Z].  The
    functions imported from other modules (the master and NLP solves, their
    handlers, the user callbacks, the solver factory and the timer) are
    collaborators: they are taken as parameters that may change the whole
    [World] and may raise.  Calls to [config.logger] have no influence on
    control flow and are left out. *)

From Stdlib Require Import ZArith QArith Qround List String Bool Lia Lqa.
Import ListNotations.

Set Implicit Arguments.

(** ** Data model *)

(** Modelled from the spec: [pyomo.opt.TerminationCondition] is declared
    outside this file; these are the members the spec lists for the
    sub-solver interface. *)
Module tc.
Inductive t :=
| optimal | locallyOptimal | infeasible | maxIterations
| maxTimeLimit | feasible | other.
End tc.

Inductive Sense := minimize | maximize.

(** A variable of [solve_data.mip], as [component_data_objects(ctype=Var)]
    yields it.  The check reads the values after a master solve has loaded
    them, so a value is taken to be present and finite: a variable without a
    value, on which [round] raises, is not represented. *)
Record Var := mkVar { is_integer : bool; value : Q }.

(** An objective of [solve_data.working_model]. *)
Record Objective := mkObjective { active : bool; sense : Sense }.

Record SolveData := mkSolveData {
  working_model : list Objective;
  mip_iter : Z;
  mip_subiter : Z;
  LB : Q;
  UB : Q;
  LB_progress : list Q;
  UB_progress : list Q;
  (** [results.solver.termination_condition]; [None] while nothing has been
      recorded. *)
  termination_condition : option tc.t;
  (** the variables of [mip] *)
  mip_vars : list Var;
  (** [mip.MindtPy_utils.MindtPy_linear_cuts.integer_cuts]: the 1-indexed
      constraint list, each entry with its active flag *)
  integer_cuts : list bool;
  curr_int_sol : list Z;
  prev_int_sol : list Z
}.

Record Config := mkConfig {
  iteration_limit : Z;
  time_limit : Q;
  bound_tolerance : Q;
  cycling_check : bool;
  strategy : string;
  single_tree : bool;
  add_nogood_cuts : bool;
  zero_tolerance : Q;
  mip_solver : string;
  (** the ['add_options'] entry of [mip_solver_args], when present *)
  mip_solver_args : option (list string)
}.

Record World := mkWorld { solve_data : SolveData; config : Config }.

(** Field updates. *)
Definition set_mip_subiter (v : Z) (d : SolveData) : SolveData :=
  mkSolveData (working_model d) (mip_iter d) v (LB d) (UB d) (LB_progress d)
    (UB_progress d) (termination_condition d) (mip_vars d) (integer_cuts d)
    (curr_int_sol d) (prev_int_sol d).

Definition set_LB (v : Q) (d : SolveData) : SolveData :=
  mkSolveData (working_model d) (mip_iter d) (mip_subiter d) v (UB d)
    (LB_progress d) (UB_progress d) (termination_condition d) (mip_vars d)
    (integer_cuts d) (curr_int_sol d) (prev_int_sol d).

Definition set_UB (v : Q) (d : SolveData) : SolveData :=
  mkSolveData (working_model d) (mip_iter d) (mip_subiter d) (LB d) v
    (LB_progress d) (UB_progress d) (termination_condition d) (mip_vars d)
    (integer_cuts d) (curr_int_sol d) (prev_int_sol d).

Definition set_LB_progress (v : list Q) (d : SolveData) : SolveData :=
  mkSolveData (working_model d) (mip_iter d) (mip_subiter d) (LB d) (UB d) v
    (UB_progress d) (termination_condition d) (mip_vars d) (integer_cuts d)
    (curr_int_sol d) (prev_int_sol d).

Definition set_UB_progress (v : list Q) (d : SolveData) : SolveData :=
  mkSolveData (working_model d) (mip_iter d) (mip_subiter d) (LB d) (UB d)
    (LB_progress d) v (termination_condition d) (mip_vars d) (integer_cuts d)
    (curr_int_sol d) (prev_int_sol d).

Definition set_termination_condition (v : tc.t) (d : SolveData) : SolveData :=
  mkSolveData (working_model d) (mip_iter d) (mip_subiter d) (LB d) (UB d)
    (LB_progress d) (UB_progress d) (Some v) (mip_vars d) (integer_cuts d)
    (curr_int_sol d) (prev_int_sol d).

Definition set_integer_cuts (v : list bool) (d : SolveData) : SolveData :=
  mkSolveData (working_model d) (mip_iter d) (mip_subiter d) (LB d) (UB d)
    (LB_progress d) (UB_progress d) (termination_condition d) (mip_vars d) v
    (curr_int_sol d) (prev_int_sol d).

Definition set_curr_int_sol (v : list Z) (d : SolveData) : SolveData :=
  mkSolveData (working_model d) (mip_iter d) (mip_subiter d) (LB d) (UB d)
    (LB_progress d) (UB_progress d) (termination_condition d) (mip_vars d)
    (integer_cuts d) v (prev_int_sol d).

Definition set_prev_int_sol (v : list Z) (d : SolveData) : SolveData :=
  mkSolveData (working_model d) (mip_iter d) (mip_subiter d) (LB d) (UB d)
    (LB_progress d) (UB_progress d) (termination_condition d) (mip_vars d)
    (integer_cuts d) (curr_int_sol d) v.

Definition set_zero_tolerance (v : Q) (c : Config) : Config :=
  mkConfig (iteration_limit c) (time_limit c) (bound_tolerance c)
    (cycling_check c) (strategy c) (single_tree c) (add_nogood_cuts c) v
    (mip_solver c) (mip_solver_args c).

Definition set_mip_solver_args (v : option (list string)) (c : Config)
  : Config :=
  mkConfig (iteration_limit c) (time_limit c) (bound_tolerance c)
    (cycling_check c) (strategy c) (single_tree c) (add_nogood_cuts c)
    (zero_tolerance c) (mip_solver c) v.

Definition on_data (f : SolveData -> SolveData) (w : World) : World :=
  mkWorld (f (solve_data w)) (config w).

Definition on_config (f : Config -> Config) (w : World) : World :=
  mkWorld (solve_data w) (f (config w)).

(** ** Python built-ins used by the file *)

(** [a > b] on floats. *)
Definition Qgt_bool (a b : Q) : bool := negb (Qle_bool a b).

(** [round(x)] of Python 3: to the nearest integer, ties to the even one. *)
Definition py_round (q : Q) : Z :=
  let f := Qfloor q in
  match Qcompare (q - inject_Z f) (1 # 2) with
  | Lt => f
  | Gt => (f + 1)%Z
  | Eq => if Z.even f then f else (f + 1)%Z
  end.

(** [max([x] + xs)]: the running maximum is replaced by an item that is
    strictly greater. *)
Definition py_max (x : Q) (xs : list Q) : Q :=
  fold_left (fun m y => if Qgt_bool y m then y else m) xs x.

(** [min([x] + xs)]: replaced by an item that is strictly smaller. *)
Definition py_min (x : Q) (xs : list Q) : Q :=
  fold_left (fun m y => if Qgt_bool m y then y else m) xs x.

(** [==] on lists of ints. *)
Fixpoint int_list_eqb (a b : list Z) : bool :=
  match a, b with
  | [], [] => true
  | x :: a', y :: b' => Z.eqb x y && int_list_eqb a' b'
  | _, _ => false
  end.

(** [next(m.component_data_objects(Objective, active=True))]. *)
Definition first_active (os : list Objective) : option Objective :=
  find active os.

(** ** Effects: exceptions, collaborators and the call trace *)

Inductive exn :=
| UnboundLocalError
| NotImplementedError
| KeyError
| StopIteration
| CollaboratorError (code : nat).

(** What a collaborator does: it returns or raises, and leaves a world. *)
Inductive result (A : Type) :=
| Returns (a : A) (w : World)
| Raises (e : exn) (w : World).
Arguments Raises {A} e w.

(** The calls that leave the file, in the order they are made. *)
Inductive event :=
| ev_solve_OA_master
| ev_handle_master_mip_optimal
| ev_handle_master_mip_infeasible
| ev_handle_master_mip_other_conditions
| ev_call_after_master_solve
| ev_solve_NLP_subproblem
| ev_handle_NLP_subproblem_optimal
| ev_handle_NLP_subproblem_infeasible
| ev_handle_NLP_subproblem_other_termination
| ev_call_after_subproblem_solve
| ev_deactivate_integer_cut (index : nat)
| ev_set_instance
| ev_masteropt_solve (add_options : option (list string)).

Definition event_eqb (a b : event) : bool :=
  match a, b with
  | ev_solve_OA_master, ev_solve_OA_master
  | ev_handle_master_mip_optimal, ev_handle_master_mip_optimal
  | ev_handle_master_mip_infeasible, ev_handle_master_mip_infeasible
  | ev_handle_master_mip_other_conditions,
    ev_handle_master_mip_other_conditions
  | ev_call_after_master_solve, ev_call_after_master_solve
  | ev_solve_NLP_subproblem, ev_solve_NLP_subproblem
  | ev_handle_NLP_subproblem_optimal, ev_handle_NLP_subproblem_optimal
  | ev_handle_NLP_subproblem_infeasible, ev_handle_NLP_subproblem_infeasible
  | ev_handle_NLP_subproblem_other_termination,
    ev_handle_NLP_subproblem_other_termination
  | ev_call_after_subproblem_solve, ev_call_after_subproblem_solve
  | ev_set_instance, ev_set_instance => true
  | ev_deactivate_integer_cut i, ev_deactivate_integer_cut j => Nat.eqb i j
  | ev_masteropt_solve _, ev_masteropt_solve _ => true
  | _, _ => false
  end.

Record Machine := mkMachine { world : World; trace : list event }.

Inductive outcome (A : Type) :=
| Ok (a : A) (m : Machine)
| Raise (e : exn) (m : Machine).
Arguments Raise {A} e m.

Definition M (A : Type) := Machine -> outcome A.

Definition ret {A} (a : A) : M A := fun m => Ok a m.

Definition bind {A B} (c : M A) (k : A -> M B) : M B :=
  fun m => match c m with
           | Ok a m' => k a m'
           | Raise e m' => Raise e m'
           end.

Definition raise {A} (e : exn) : M A := fun m => Raise e m.

Definition gets {A} (f : World -> A) : M A := fun m => Ok (f (world m)) m.

Definition modify (f : World -> World) : M unit :=
  fun m => Ok tt (mkMachine (f (world m)) (trace m)).

(** A call to a collaborator: the event is recorded when the call is made. *)
Definition call {A} (ev : event) (f : World -> result A) : M A :=
  fun m => match f (world m) with
           | Returns a w => Ok a (mkMachine w (trace m ++ [ev]))
           | Raises e w => Raise e (mkMachine w (trace m ++ [ev]))
           end.

Declare Scope monad_scope.
Delimit Scope monad_scope with monad.
Notation "x <- c ;; k" := (bind c (fun x => k))
  (at level 61, c at next level, right associativity) : monad_scope.
Notation "c ;; k" := (bind c (fun _ => k))
  (at level 61, right associativity) : monad_scope.
Open Scope monad_scope.

Definition outcome_machine {A} (o : outcome A) : Machine :=
  match o with Ok _ m => m | Raise _ m => m end.

(** [solver.termination_condition] and [problem.lower_bound/upper_bound] of a
    results object. *)
Record SolverResults := mkSolverResults {
  solver_termination_condition : tc.t;
  problem_lower_bound : Q;
  problem_upper_bound : Q
}.

(** The functions the file imports, and the two callbacks of [config]. *)
Record Collaborators := mkCollaborators {
  Model : Type;
  solve_OA_master : World -> result (Model * SolverResults);
  handle_master_mip_optimal : Model -> World -> result unit;
  handle_master_mip_infeasible : Model -> World -> result unit;
  handle_master_mip_other_conditions :
    Model -> SolverResults -> World -> result unit;
  call_after_master_solve : Model -> World -> result unit;
  solve_NLP_subproblem : World -> result (Model * SolverResults);
  handle_NLP_subproblem_optimal : Model -> World -> result unit;
  handle_NLP_subproblem_infeasible : Model -> World -> result unit;
  handle_NLP_subproblem_other_termination :
    Model -> tc.t -> World -> result unit;
  call_after_subproblem_solve : Model -> World -> result unit;
  (** [get_main_elapsed_time(solve_data.timing)] *)
  get_main_elapsed_time : World -> Q;
  (** [isinstance(SolverFactory(name), PersistentSolver)] *)
  is_persistent : string -> bool;
  (** [masteropt.set_instance(solve_data.mip, symbolic_solver_labels=True)] *)
  set_instance : World -> result unit;
  (** [masteropt.solve(solve_data.mip, **mip_args)] *)
  masteropt_solve : option (list string) -> World -> result SolverResults
}.

(** ** The program *)

Section Iterate.

Variable E : Collaborators.

(** The three bound, iteration and time tests of
    [algorithm_should_terminate], as the source writes them. *)
Definition bounds_converged (w : World) : bool :=
  Qle_bool (UB (solve_data w))
           (LB (solve_data w) + bound_tolerance (config w)).

Definition iteration_limit_reached (w : World) : bool :=
  (iteration_limit (config w) <=? mip_iter (solve_data w))%Z.

Definition time_limit_reached (w : World) : bool :=
  Qle_bool (time_limit (config w)) (get_main_elapsed_time E w).

(** [temp]: [int(round(var.value))] of every integer variable of [mip]. *)
Definition rounded_integer_values (vars : list Var) : list Z :=
  map (fun v => py_round (value v)) (filter is_integer vars).

(** [algorithm_should_terminate(solve_data, config, check_cycling)]: the
    returned flag and the world it leaves. *)
Definition algorithm_should_terminate_pure (check_cycling : bool)
    (w : World) : bool * World :=
  if bounds_converged w then
    (true, on_data (set_termination_condition tc.optimal) w)
  else if iteration_limit_reached w then
    (true, on_data (set_termination_condition tc.maxIterations) w)
  else if time_limit_reached w then
    (true, on_data (set_termination_condition tc.maxTimeLimit) w)
  else if cycling_check (config w)
          && (1 <=? mip_iter (solve_data w))%Z
          && check_cycling then
    let temp := rounded_integer_values (mip_vars (solve_data w)) in
    let w1 := on_data (set_curr_int_sol temp) w in
    if int_list_eqb (curr_int_sol (solve_data w1))
                    (prev_int_sol (solve_data w1)) then
      (true, on_data (set_termination_condition tc.feasible) w1)
    else
      (false,
       on_data (set_prev_int_sol (curr_int_sol (solve_data w1))) w1)
  else (false, w).

Definition algorithm_should_terminate (check_cycling : bool) : M bool :=
  fun m =>
    let (b, w) := algorithm_should_terminate_pure check_cycling (world m) in
    Ok b (mkMachine w (trace m)).

(** The branch on the NLP subproblem's termination condition, shared by the
    loop body and [bound_fix]. *)
Definition handle_NLP_result (fixed_nlp : Model E)
    (fixed_nlp_result : SolverResults) : M unit :=
  match solver_termination_condition fixed_nlp_result with
  | tc.optimal | tc.locallyOptimal =>
      call ev_handle_NLP_subproblem_optimal
           (handle_NLP_subproblem_optimal E fixed_nlp)
  | tc.infeasible =>
      call ev_handle_NLP_subproblem_infeasible
           (handle_NLP_subproblem_infeasible E fixed_nlp)
  | c =>
      call ev_handle_NLP_subproblem_other_termination
           (handle_NLP_subproblem_other_termination E fixed_nlp c)
  end.

(** How one pass through the loop body ends. *)
Inductive ctl := Continue | Break.

(** The loop body from the second termination check on.  The local
    variable [last_iter_cuts] is [None] while it is unbound. *)
Definition after_master_callback (last_iter_cuts : option bool)
  : M (ctl * option bool) :=
  stop <- algorithm_should_terminate true ;;
  if stop then ret (Break, Some false)
  else
    single <- gets (fun w => single_tree (config w)) ;;
    (if negb single then
       r <- call ev_solve_NLP_subproblem (solve_NLP_subproblem E) ;;
       handle_NLP_result (fst r) (snd r) ;;
       call ev_call_after_subproblem_solve
            (call_after_subproblem_solve E (fst r))
     else ret tt) ;;
    ret (Continue, last_iter_cuts).

(** The loop body from the master callback on. *)
Definition after_master_handler (master_mip : Model E)
    (last_iter_cuts : option bool) : M (ctl * option bool) :=
  call ev_call_after_master_solve (call_after_master_solve E master_mip) ;;
  after_master_callback last_iter_cuts.

Definition strategy_implemented (s : string) : bool :=
  String.eqb s "OA" || String.eqb s "GOA".

(** One pass through the body of the [while] loop. *)
Definition iteration (last_iter_cuts : option bool)
  : M (ctl * option bool) :=
  stop <- algorithm_should_terminate false ;;
  if stop then ret (Break, Some true)
  else
    modify (on_data (set_mip_subiter 0%Z)) ;;
    strat <- gets (fun w => strategy (config w)) ;;
    if strategy_implemented strat then
      r <- call ev_solve_OA_master (solve_OA_master E) ;;
      let master_mip := fst r in
      let master_mip_results := snd r in
      match solver_termination_condition master_mip_results with
      | tc.optimal =>
          call ev_handle_master_mip_optimal
               (handle_master_mip_optimal E master_mip) ;;
          after_master_handler master_mip last_iter_cuts
      | tc.infeasible =>
          call ev_handle_master_mip_infeasible
               (handle_master_mip_infeasible E master_mip) ;;
          ret (Break, Some true)
      | _ =>
          call ev_handle_master_mip_other_conditions
               (handle_master_mip_other_conditions E master_mip
                  master_mip_results) ;;
          after_master_handler master_mip last_iter_cuts
      end
    else raise NotImplementedError.

(** How the [while] statement was left. *)
Inductive loop_exit := GuardExit | BreakExit.

Definition loop_guard (w : World) : bool :=
  (mip_iter (solve_data w) <? iteration_limit (config w))%Z.

(** The [while] loop.  The collaborators decide whether it ends, so it runs
    on fuel: [None] is a run that needs more passes than [fuel]. *)
Fixpoint while_loop (fuel : nat) (last_iter_cuts : option bool)
    (m : Machine) : option (outcome (loop_exit * option bool)) :=
  match fuel with
  | O => None
  | S fuel' =>
      if loop_guard (world m) then
        match iteration last_iter_cuts m with
        | Ok (Continue, l) m' => while_loop fuel' l m'
        | Ok (Break, l) m' => Some (Ok (BreakExit, l) m')
        | Raise e m' => Some (Raise e m')
        end
      else Some (Ok (GuardExit, last_iter_cuts) m)
  end.

(** [integer_cuts[len(integer_cuts)].deactivate()]: the constraint list is
    indexed from 1, so an empty one has no such index. *)
Definition deactivate_last_integer_cut : M unit :=
  fun m =>
    let cuts := integer_cuts (solve_data (world m)) in
    match cuts with
    | [] => Raise KeyError m
    | _ :: _ =>
        Ok tt (mkMachine
                 (on_data (set_integer_cuts (removelast cuts ++ [false]))
                          (world m))
                 (trace m ++ [ev_deactivate_integer_cut (List.length cuts)]))
    end.

(** [mip_args = dict(config.mip_solver_args)] and the GAMS option.  The
    copy is shallow: an ['add_options'] list that is already there is the
    one the option is appended to. *)
Definition make_mip_args : M (option (list string)) :=
  fun m =>
    let c := config (world m) in
    if String.eqb (mip_solver c) "gams" then
      match mip_solver_args c with
      | Some opts =>
          let opts' := opts ++ ["option optcr=0.0;"%string] in
          Ok (Some opts')
             (mkMachine
                (on_config (set_mip_solver_args (Some opts')) (world m))
                (trace m))
      | None => Ok (Some ["option optcr=0.0;"%string]) m
      end
    else Ok (mip_solver_args c) m.

(** The update of the bound and of its progress list at the end of
    [bound_fix]. *)
Definition record_fixed_bound (s : Sense) (master_mip_results : SolverResults)
    (d : SolveData) : SolveData :=
  match s with
  | minimize =>
      let lb := py_max (problem_lower_bound master_mip_results)
                       (removelast (LB_progress d)) in
      let d1 := set_LB lb d in
      set_LB_progress (LB_progress d1 ++ [LB d1]) d1
  | maximize =>
      let ub := py_min (problem_upper_bound master_mip_results)
                       (removelast (UB_progress d)) in
      let d1 := set_UB ub d in
      set_UB_progress (UB_progress d1 ++ [UB d1]) d1
  end.

(** The closing test of [bound_fix]: [optimal] is recorded when the
    corrected bounds have converged. *)
Definition record_bound_convergence (w : World) : World :=
  if bounds_converged w then
    on_data (set_termination_condition tc.optimal) w
  else w.

(** [bound_fix] from the deactivation of the last integer cut on: the
    master problem is solved once more and its bound recorded. *)
Definition resolve_master : M unit :=
  deactivate_last_integer_cut ;;
  solver <- gets (fun w => mip_solver (config w)) ;;
  (if is_persistent E solver then call ev_set_instance (set_instance E)
   else ret tt) ;;
  mip_args <- make_mip_args ;;
  master_mip_results <-
    call (ev_masteropt_solve mip_args) (masteropt_solve E mip_args) ;;
  objs <- gets (fun w => working_model (solve_data w)) ;;
  match first_active objs with
  | None => raise StopIteration
  | Some main_objective =>
      modify (on_data (record_fixed_bound (sense main_objective)
                         master_mip_results)) ;;
      modify record_bound_convergence
  end.

Definition bound_fix (last_iter_cuts : bool) : M unit :=
  modify (on_config (set_zero_tolerance (1 # 10000))) ;;
  (if negb last_iter_cuts then
     r <- call ev_solve_NLP_subproblem (solve_NLP_subproblem E) ;;
     handle_NLP_result (fst r) (snd r)
   else ret tt) ;;
  resolve_master.

(** The loop of [MindtPy_iteration_loop], started with [last_iter_cuts]
    unbound. *)
Definition main_loop (fuel : nat) (m : Machine)
  : option (outcome (loop_exit * option bool)) :=
  while_loop fuel None m.

(** What follows the loop: the bound correction when [add_nogood_cuts]. *)
Definition after_loop (last_iter_cuts : option bool) : M unit :=
  nogood <- gets (fun w => add_nogood_cuts (config w)) ;;
  if nogood then
    match last_iter_cuts with
    | None => raise UnboundLocalError
    | Some b => bound_fix b
    end
  else ret tt.

Definition MindtPy_iteration_loop (fuel : nat) (m : Machine)
  : option (outcome unit) :=
  match first_active (working_model (solve_data (world m))) with
  | None => Some (Raise StopIteration m)
  | Some _ =>
      match main_loop fuel m with
      | None => None
      | Some (Ok (_, l) m') => Some (after_loop l m')
      | Some (Raise e m') => Some (Raise e m')
      end
  end.

End Iterate.

(** ** Complete passes of the loop *)

Section Passes.

Variable E : Collaborators.

(** [run_passes n l m]: the local [last_iter_cuts] and the machine after
    [n] passes of the loop body that were entered through the guard and
    ran to their end without [break] and without raising. *)
Fixpoint run_passes (n : nat) (last_iter_cuts : option bool) (m : Machine)
  : option (option bool * Machine) :=
  match n with
  | O => Some (last_iter_cuts, m)
  | S n' =>
      if loop_guard (world m) then
        match iteration E last_iter_cuts m with
        | Ok (Continue, l) m' => run_passes n' l m'
        | _ => None
        end
      else None
  end.

Definition is_masteropt_solve (e : event) : bool :=
  match e with ev_masteropt_solve _ => true | _ => false end.

Definition is_deactivate_integer_cut (e : event) : bool :=
  match e with ev_deactivate_integer_cut _ => true | _ => false end.

Definition count_events (p : event -> bool) (tr : list event) : nat :=
  List.length (filter p tr).

(** The bound-correction pass in a list of calls: the last integer cut is
    deactivated and the master problem is solved once. *)
Definition bound_correction_performed (tr : list event) : bool :=
  Nat.eqb (count_events is_deactivate_integer_cut tr) 1
  && Nat.eqb (count_events is_masteropt_solve tr) 1.

Definition NLP_subproblem_solved (tr : list event) : bool :=
  existsb (event_eqb ev_solve_NLP_subproblem) tr.

(** The handler the loop body picks for a master result, with the event
    that records its call. *)
Definition master_handler_call (x : Model E) (res : SolverResults)
  : event * (World -> result unit) :=
  match solver_termination_condition res with
  | tc.optimal =>
      (ev_handle_master_mip_optimal, handle_master_mip_optimal E x)
  | tc.infeasible =>
      (ev_handle_master_mip_infeasible, handle_master_mip_infeasible E x)
  | _ =>
      (ev_handle_master_mip_other_conditions,
       handle_master_mip_other_conditions E x res)
  end.

(** The handler picked for an NLP subproblem result. *)
Definition NLP_handler_call (y : Model E) (res : SolverResults)
  : event * (World -> result unit) :=
  match solver_termination_condition res with
  | tc.optimal | tc.locallyOptimal =>
      (ev_handle_NLP_subproblem_optimal, handle_NLP_subproblem_optimal E y)
  | tc.infeasible =>
      (ev_handle_NLP_subproblem_infeasible,
       handle_NLP_subproblem_infeasible E y)
  | c =>
      (ev_handle_NLP_subproblem_other_termination,
       handle_NLP_subproblem_other_termination E y c)
  end.

End Passes.




Definition is_NLP_handler (e : event) : bool :=
  match e with
  | ev_handle_NLP_subproblem_optimal
  | ev_handle_NLP_subproblem_infeasible
  | ev_handle_NLP_subproblem_other_termination => true
  | _ => false
  end.

(** A property of the world that every collaborator keeps, whether it
    returns or raises. *)
Definition result_world {A} (r : result A) : World :=
  match r with Returns _ w => w | Raises _ w => w end.

Record kept_by_collaborators (E : Collaborators) (P : World -> Prop)
  : Prop := mkKept {
  kept_solve_OA_master :
    forall w, P w -> P (result_world (solve_OA_master E w));
  kept_handle_master_mip_optimal :
    forall x w, P w -> P (result_world (handle_master_mip_optimal E x w));
  kept_handle_master_mip_infeasible :
    forall x w, P w -> P (result_world (handle_master_mip_infeasible E x w));
  kept_handle_master_mip_other_conditions :
    forall x r w, P w ->
      P (result_world (handle_master_mip_other_conditions E x r w));
  kept_call_after_master_solve :
    forall x w, P w -> P (result_world (call_after_master_solve E x w));
  kept_solve_NLP_subproblem :
    forall w, P w -> P (result_world (solve_NLP_subproblem E w));
  kept_handle_NLP_subproblem_optimal :
    forall x w, P w -> P (result_world (handle_NLP_subproblem_optimal E x w));
  kept_handle_NLP_subproblem_infeasible :
    forall x w, P w ->
      P (result_world (handle_NLP_subproblem_infeasible E x w));
  kept_handle_NLP_subproblem_other_termination :
    forall x c w, P w ->
      P (result_world (handle_NLP_subproblem_other_termination E x c w));
  kept_call_after_subproblem_solve :
    forall x w, P w -> P (result_world (call_after_subproblem_solve E x w))
}.

(** A computation keeps a property of the world when the machine it leaves,
    on return or on raise, has it whenever the machine it started from had. *)
Definition keeps {A} (P : World -> Prop) (c : M A) : Prop :=
  forall m, P (world m) -> P (world (outcome_machine (c m))).

(** ** Concrete runs *)

Module Scenario.

Definition set_mip_iter (v : Z) (d : SolveData) : SolveData :=
  mkSolveData (working_model d) v (mip_subiter d) (LB d) (UB d)
    (LB_progress d) (UB_progress d) (termination_condition d) (mip_vars d)
    (integer_cuts d) (curr_int_sol d) (prev_int_sol d).

Definition set_add_nogood_cuts (v : bool) (c : Config) : Config :=
  mkConfig (iteration_limit c) (time_limit c) (bound_tolerance c)
    (cycling_check c) (strategy c) (single_tree c) v (zero_tolerance c)
    (mip_solver c) (mip_solver_args c).

Definition set_iteration_limit (v : Z) (c : Config) : Config :=
  mkConfig v (time_limit c) (bound_tolerance c) (cycling_check c)
    (strategy c) (single_tree c) (add_nogood_cuts c) (zero_tolerance c)
    (mip_solver c) (mip_solver_args c).

(** A minimisation with bounds 1 <= 5 < 10 recorded so far, three
    variables of which two are integer, and one integer cut. *)
Definition data0 : SolveData :=
  mkSolveData [mkObjective false maximize; mkObjective true minimize]
    0 0 5 10 [1; 5] [10] None
    [mkVar true (3 # 2); mkVar false (1 # 3); mkVar true (5 # 2)]
    [true] [] [].

Definition config0 : Config :=
  mkConfig 3 100 (1 # 1000) true "OA" false false 0 "glpk" None.

Definition world0 : World := mkWorld data0 config0.

Definition start (w : World) : Machine := mkMachine w [].

(** A master solve that counts the iteration, as [solve_OA_master] does,
    and reports the given termination condition. *)
Definition master (c : tc.t) (w : World) : result (nat * SolverResults) :=
  Returns (0%nat, mkSolverResults c 0 0)
    (on_data (fun d => set_mip_iter (mip_iter d + 1) d) w).

(** An optimal-master handler that records the bound [v] when it improves
    on everything recorded so far. *)
Definition record_lower_bound (v : Q) (w : World) : result unit :=
  Returns tt
    (on_data (fun d =>
                let lb := py_max v (LB_progress d) in
                set_LB_progress (LB_progress d ++ [lb]) (set_LB lb d)) w).

Definition quiet {A : Type} (_ : A) (w : World) : result unit :=
  Returns tt w.

Definition failing {A : Type} (code : nat) (_ : A) (w : World)
  : result unit :=
  Raises (CollaboratorError code) w.

Definition nlp (w : World) : result (nat * SolverResults) :=
  Returns (1%nat, mkSolverResults tc.optimal 0 0) w.

(** Collaborators that differ in what the master reports, in the master
    callback and in the bounds of the re-solved master. *)
Definition env (c : tc.t) (callback : nat -> World -> result unit)
    (lower upper : Q) : Collaborators :=
  mkCollaborators
    (master c)
    (fun _ => record_lower_bound 6)
    quiet
    (fun _ _ w => Returns tt w)
    callback
    nlp
    quiet
    quiet
    (fun _ _ w => Returns tt w)
    quiet
    (fun _ => 0)
    (fun name => String.eqb name "gurobi_persistent")
    (fun w => Returns tt w)
    (fun _ w => Returns (mkSolverResults tc.optimal lower upper) w).

Definition env_optimal : Collaborators := env tc.optimal quiet 3 10.
Definition env_infeasible : Collaborators := env tc.infeasible quiet 3 10.
Definition env_callback_fails : Collaborators :=
  env tc.other (failing 7) 3 10.

(** The machine after the first pass of the run of [env_optimal] from
    [world0], which runs to its end. *)
Definition after_first_pass : Machine :=
  Eval vm_compute in
    match run_passes env_optimal 1 None (start world0) with
    | Some (_, m) => m
    | None => start world0
    end.

(** The machine of that run at the second termination check of the second
    pass: after the master solve, its handler and the master callback. *)
Definition at_second_check : Machine :=
  Eval vm_compute in
    outcome_machine
      ((modify (on_data (set_mip_subiter 0%Z)) ;;
        r <- call ev_solve_OA_master (solve_OA_master env_optimal) ;;
        call ev_handle_master_mip_optimal
             (handle_master_mip_optimal env_optimal (fst r)) ;;
        call ev_call_after_master_solve
             (call_after_master_solve env_optimal (fst r)))
         after_first_pass).

(** A second termination check at which the integer solution repeats
    ([round(1.5) = 2], [round(2.5) = 2]) while the bounds have converged
    ([10 + 0.001 >= 10]). *)
Definition world_cycling_converged : World :=
  on_data (fun d => set_LB 10 (set_prev_int_sol [2%Z; 2%Z]
                                 (set_mip_iter 1 d))) world0.

Definition world_nogood : World :=
  on_config (set_add_nogood_cuts true) world0.

(** The run of [env_optimal] from [world_nogood]: the machine when the
    loop is left, and when [MindtPy_iteration_loop] returns. *)
Definition nogood_loop_end : Machine :=
  Eval vm_compute in
    match main_loop env_optimal 5 (start world_nogood) with
    | Some r => outcome_machine r
    | None => start world_nogood
    end.

Definition nogood_run_end : Machine :=
  Eval vm_compute in
    match MindtPy_iteration_loop env_optimal 5 (start world_nogood) with
    | Some r => outcome_machine r
    | None => start world_nogood
    end.

(** The machine [bound_fix] leaves when it is called in [world0] with
    [last_iter_cuts] true. *)
Definition fixed_end : Machine :=
  Eval vm_compute in
    outcome_machine (bound_fix env_optimal true (start world0)).

End Scenario.

(** ** Further notions for the loop and the bound correction *)

(** Two worlds that differ at most in what the termination check and the
    loop body write themselves: [mip_subiter], the recorded termination
    condition, [curr_int_sol] and [prev_int_sol]. *)
Definition same_for_loop (w w' : World) : Prop :=
  config w' = config w /\
  working_model (solve_data w') = working_model (solve_data w) /\
  mip_iter (solve_data w') = mip_iter (solve_data w) /\
  LB (solve_data w') = LB (solve_data w) /\
  UB (solve_data w') = UB (solve_data w) /\
  LB_progress (solve_data w') = LB_progress (solve_data w) /\
  UB_progress (solve_data w') = UB_progress (solve_data w) /\
  mip_vars (solve_data w') = mip_vars (solve_data w) /\
  integer_cuts (solve_data w') = integer_cuts (solve_data w).

(** A property of the world that does not look at those four fields. *)
Definition loop_insensitive (P : World -> Prop) : Prop :=
  forall w w', same_for_loop w w' -> P w -> P w'.

(** The conditions [algorithm_should_terminate] records. *)
Definition is_stop_condition (c : tc.t) : bool :=
  match c with
  | tc.optimal | tc.maxIterations | tc.maxTimeLimit | tc.feasible => true
  | _ => false
  end.

Definition stop_recorded (w : World) : Prop :=
  exists c, termination_condition (solve_data w) = Some c /\
            is_stop_condition c = true.

(** The master handlers after which the pass goes on. *)
Definition is_continuing_master_handler (e : event) : bool :=
  match e with
  | ev_handle_master_mip_optimal
  | ev_handle_master_mip_other_conditions => true
  | _ => false
  end.

(** A computation that, however it ends, makes only calls of the given
    kind. *)
Definition emits_only {A} (allowed : event -> bool) (c : M A) : Prop :=
  forall m, exists post,
    trace (outcome_machine (c m)) = trace m ++ post /\
    forallb allowed post = true.

(** The calls of the loop body, and those of [bound_fix]. *)
Definition is_loop_event (e : event) : bool :=
  match e with
  | ev_solve_OA_master
  | ev_handle_master_mip_optimal
  | ev_handle_master_mip_infeasible
  | ev_handle_master_mip_other_conditions
  | ev_call_after_master_solve
  | ev_solve_NLP_subproblem
  | ev_handle_NLP_subproblem_optimal
  | ev_handle_NLP_subproblem_infeasible
  | ev_handle_NLP_subproblem_other_termination
  | ev_call_after_subproblem_solve => true
  | _ => false
  end.

Definition is_bound_fix_event (e : event) : bool :=
  match e with
  | ev_solve_NLP_subproblem
  | ev_handle_NLP_subproblem_optimal
  | ev_handle_NLP_subproblem_infeasible
  | ev_handle_NLP_subproblem_other_termination
  | ev_deactivate_integer_cut _
  | ev_set_instance
  | ev_masteropt_solve _ => true
  | _ => false
  end.

(** A property kept by the collaborators called after the second
    termination check of a pass. *)
Record kept_by_NLP_side (E : Collaborators) (P : World -> Prop)
  : Prop := mkKeptNLP {
  side_solve_NLP_subproblem :
    forall w, P w -> P (result_world (solve_NLP_subproblem E w));
  side_handle_NLP_subproblem_optimal :
    forall x w, P w -> P (result_world (handle_NLP_subproblem_optimal E x w));
  side_handle_NLP_subproblem_infeasible :
    forall x w, P w ->
      P (result_world (handle_NLP_subproblem_infeasible E x w));
  side_handle_NLP_subproblem_other_termination :
    forall x c w, P w ->
      P (result_world (handle_NLP_subproblem_other_termination E x c w));
  side_call_after_subproblem_solve :
    forall x w, P w -> P (result_world (call_after_subproblem_solve E x w))
}.

(** The master iterations the guard of the loop still allows. *)
Definition iterations_left (w : World) : Z :=
  (iteration_limit (config w) - mip_iter (solve_data w))%Z.

(** Collaborators under which [mip_iter] counts the master solves: a master
    solve that returns uses up at least one of the iterations left, and no
    collaborator gives any back. *)
Record counts_master_iterations (E : Collaborators) : Prop := mkCounts {
  master_advances :
    forall w a w', solve_OA_master E w = Returns a w' ->
      (iterations_left w' <= iterations_left w - 1)%Z;
  none_gives_back :
    forall c, kept_by_collaborators E
                (fun w => (iterations_left w <= c)%Z)
}.

(** The number of calls of one kind in a trace. *)
Definition calls_of (ev : event) (tr : list event) : nat :=
  count_events (event_eqb ev) tr.

(** The loop body from the branch on the master's termination condition
    on, for the master model [x] and its results [res]. *)
Definition master_branch (E : Collaborators) (x : Model E)
    (res : SolverResults) (l : option bool) : M (ctl * option bool) :=
  match solver_termination_condition res with
  | tc.optimal =>
      call ev_handle_master_mip_optimal (handle_master_mip_optimal E x) ;;
      after_master_handler E x l
  | tc.infeasible =>
      call ev_handle_master_mip_infeasible
           (handle_master_mip_infeasible E x) ;;
      ret (Break, Some true)
  | _ =>
      call ev_handle_master_mip_other_conditions
           (handle_master_mip_other_conditions E x res) ;;
      after_master_handler E x l
  end.

(** Two variable lists that the cycling check cannot tell apart: the same
    variables are integer, and each integer variable has its two values
    within one half of the same integer. *)
Definition near (q : Q) (z : Z) : Prop :=
  inject_Z z - (1 # 2) < q /\ q < inject_Z z + (1 # 2).

Definition same_integer_part (v v' : Var) : Prop :=
  is_integer v = is_integer v' /\
  (is_integer v = true -> exists z, near (value v) z /\ near (value v') z).









Module Cases.



(** [world0] with a strategy that is not implemented. *)
Definition world_ECP : World :=
  on_config (fun c =>
               mkConfig (iteration_limit c) (time_limit c)
                 (bound_tolerance c) (cycling_check c) "ECP"
                 (single_tree c) (add_nogood_cuts c) (zero_tolerance c)
                 (mip_solver c) (mip_solver_args c)) Scenario.world0.

(** [world0] without integer cuts. *)
Definition world_no_cuts : World :=
  on_data (set_integer_cuts []) Scenario.world0.

(** [world0] at iteration 1 with the previous integer solution [[1; 3]]. *)
Definition world_second_check : World :=
  on_data (fun d => set_prev_int_sol [1%Z; 3%Z]
                      (Scenario.set_mip_iter 1 d)) Scenario.world0.

(** [world0] with converged bounds, [add_nogood_cuts] set and no integer
    cut. *)
Definition world_converged_no_cuts : World :=
  on_config (Scenario.set_add_nogood_cuts true)
    (on_data (fun d => set_LB 10 (set_integer_cuts [] d)) Scenario.world0).

(** Two master solutions whose integer variables lie near 2 and near 3, with
    different continuous variables. *)
Definition vars_a : list Var :=
  [mkVar true (19 # 10); mkVar false (1 # 3); mkVar true (31 # 10)].

Definition vars_b : list Var :=
  [mkVar true (21 # 10); mkVar false (7 # 1); mkVar true (29 # 10)].

End Cases.

(** ** Proof support *)

Ltac break_match :=
  match goal with
  | H : context [match ?x with _ => _ end] |- _ =>
      let Heq := fresh "Heq" in destruct x eqn:Heq
  | |- context [match ?x with _ => _ end] =>
      let Heq := fresh "Heq" in destruct x eqn:Heq
  end.

Ltac unfold_monad :=
  unfold bind, ret, raise, gets, modify, call in *.

Lemma Qle_bool_false (a b : Q) : Qle_bool a b = false <-> ~ a <= b.
Proof.
  rewrite <- Qle_bool_iff. destruct (Qle_bool a b); split; intro H;
    try reflexivity; try discriminate.
  - exfalso; apply H; reflexivity.
Qed.

Lemma Qgt_bool_true (a b : Q) : Qgt_bool a b = true <-> b < a.
Proof.
  unfold Qgt_bool. rewrite negb_true_iff, Qle_bool_false.
  split; intro H.
  - apply Qnot_le_lt; exact H.
  - apply Qlt_not_le; exact H.
Qed.

Lemma Qgt_bool_false (a b : Q) : Qgt_bool a b = false <-> a <= b.
Proof.
  unfold Qgt_bool. rewrite negb_false_iff. apply Qle_bool_iff.
Qed.

Lemma int_list_eqb_eq (a b : list Z) : int_list_eqb a b = true <-> a = b.
Proof.
  revert b; induction a as [|x a IH]; intros [|y b]; simpl;
    try (split; (reflexivity || discriminate)).
  rewrite andb_true_iff, Z.eqb_eq, IH. split.
  - intros [-> ->]; reflexivity.
  - intros H; inversion H; auto.
Qed.

Section Facts.

Variable E : Collaborators.

(** *** The termination check *)

Lemma bounds_converged_iff (w : World) :
  bounds_converged w = true <->
  UB (solve_data w) <= LB (solve_data w) + bound_tolerance (config w).
Proof. apply Qle_bool_iff. Qed.

Lemma iteration_limit_reached_iff (w : World) :
  iteration_limit_reached w = true <->
  (iteration_limit (config w) <= mip_iter (solve_data w))%Z.
Proof. apply Z.leb_le. Qed.

Lemma time_limit_reached_iff (w : World) :
  time_limit_reached E w = true <->
  time_limit (config w) <= get_main_elapsed_time E w.
Proof. apply Qle_bool_iff. Qed.

Lemma not_true_false (b : bool) : ~ b = true <-> b = false.
Proof. destruct b; split; intro H; congruence. Qed.

(** The check calls no collaborator that is traced. *)
Lemma algorithm_should_terminate_run (cc : bool) (m : Machine) :
  algorithm_should_terminate E cc m =
  Ok (fst (algorithm_should_terminate_pure E cc (world m)))
     (mkMachine (snd (algorithm_should_terminate_pure E cc (world m)))
                (trace m)).
Proof.
  unfold algorithm_should_terminate.
  destruct (algorithm_should_terminate_pure E cc (world m)); reflexivity.
Qed.

(** *** The local variable across passes *)

Lemma after_master_callback_continue l m l' m' :
  after_master_callback E l m = Ok (Continue, l') m' -> l' = l.
Proof.
  unfold after_master_callback. unfold_monad.
  rewrite algorithm_should_terminate_run.
  intros H. repeat break_match; congruence.
Qed.

Lemma after_master_handler_continue x l m l' m' :
  after_master_handler E x l m = Ok (Continue, l') m' -> l' = l.
Proof.
  unfold after_master_handler. unfold_monad.
  destruct (call_after_master_solve E x (world m)); try discriminate.
  apply after_master_callback_continue.
Qed.

Lemma iteration_continue l m l' m' :
  iteration E l m = Ok (Continue, l') m' -> l' = l.
Proof.
  unfold iteration. unfold_monad.
  rewrite algorithm_should_terminate_run. cbv beta iota.
  intros H.
  repeat (break_match; try discriminate);
    try (eapply after_master_handler_continue; eassumption).
Qed.

Lemma while_loop_guard_exit fuel l m l' m' :
  while_loop E fuel l m = Some (Ok (GuardExit, l') m') ->
  l' = l /\ loop_guard (world m') = false.
Proof.
  revert l m. induction fuel as [|fuel IH]; intros l m; simpl.
  - discriminate.
  - destruct (loop_guard (world m)) eqn:G.
    + destruct (iteration E l m) as [[[|] l1] m1|] eqn:It;
        try discriminate.
      intros H. apply IH in H. destruct H as [-> G'].
      split; [eapply iteration_continue; eassumption | exact G'].
    + intros H; inversion H; subst. split; [reflexivity | exact G].
Qed.

Lemma while_loop_after_passes n k l m l' m' :
  run_passes E n l m = Some (l', m') ->
  while_loop E (n + k) l m = while_loop E k l' m'.
Proof.
  revert l m. induction n as [|n IH]; intros l m; simpl.
  - intros H; inversion H; reflexivity.
  - destruct (loop_guard (world m)); try discriminate.
    destruct (iteration E l m) as [[[|] l1] m1|]; try discriminate.
    apply IH.
Qed.

Lemma run_passes_local n l m l' m' :
  run_passes E n l m = Some (l', m') -> l' = l.
Proof.
  revert l m. induction n as [|n IH]; intros l m; simpl.
  - intros H; inversion H; reflexivity.
  - destruct (loop_guard (world m)); try discriminate.
    destruct (iteration E l m) as [[[|] l1] m1|] eqn:It; try discriminate.
    intros H. apply IH in H. subst l'.
    eapply iteration_continue; eassumption.
Qed.

End Facts.

(** ** Order of the termination conditions *)

(** C3: every call to [algorithm_should_terminate] tests bound convergence
    ([LB + bound_tolerance >= UB], recorded as [optimal]) first, then the
    iteration limit ([mip_iter >= iteration_limit], recorded as
    [maxIterations]), then the time limit (elapsed time [>= time_limit],
    recorded as [maxTimeLimit]); the first test that holds fixes the recorded
    termination condition and the call returns [True]. *)
Theorem algorithm_should_terminate_precedence
    (E : Collaborators) (check_cycling : bool) (m : Machine) :
  let w := world m in
  let result := algorithm_should_terminate E check_cycling m in
  let recorded c :=
    result =
      Ok true (mkMachine (on_data (set_termination_condition c) w) (trace m))
    /\ termination_condition (solve_data (world (outcome_machine result)))
       = Some c in
  let converged :=
    UB (solve_data w) <= LB (solve_data w) + bound_tolerance (config w) in
  let out_of_iterations :=
    (iteration_limit (config w) <= mip_iter (solve_data w))%Z in
  let out_of_time := time_limit (config w) <= get_main_elapsed_time E w in
  (converged -> recorded tc.optimal) /\
  (~ converged -> out_of_iterations -> recorded tc.maxIterations) /\
  (~ converged -> ~ out_of_iterations -> out_of_time ->
   recorded tc.maxTimeLimit).
Proof.
  cbv zeta.
  rewrite <- bounds_converged_iff, <- iteration_limit_reached_iff,
    <- (time_limit_reached_iff E).
  rewrite !not_true_false.
  unfold algorithm_should_terminate, algorithm_should_terminate_pure.
  split; [|split].
  - intros ->. split; reflexivity.
  - intros -> ->. split; reflexivity.
  - intros -> -> ->. split; reflexivity.
Qed.

Lemma algorithm_should_terminate_precedence_witness :
  let w := on_config (Scenario.set_iteration_limit 0) Scenario.world0 in
  let result :=
    algorithm_should_terminate Scenario.env_optimal true (Scenario.start w) in
  result =
    Ok true (mkMachine (on_data (set_termination_condition tc.maxIterations) w)
                       [])
  /\ termination_condition (solve_data (world (outcome_machine result)))
     = Some tc.maxIterations.
Proof.
  cbv zeta.
  apply (algorithm_should_terminate_precedence Scenario.env_optimal true
           (Scenario.start
              (on_config (Scenario.set_iteration_limit 0) Scenario.world0))).
  - unfold Qle; simpl; lia.
  - simpl; lia.
Defined.

(** ** Leaving the loop through its guard *)

(** C4, at the input where it fails: with [iteration_limit = 0] the guard of
    the [while] statement is false on entry, the bounds have not converged
    ([5 + 0.001 < 10]), and the function returns without having recorded any
    termination condition. *)
Theorem iteration_limit_at_guard_records_nothing :
  let w := on_config (Scenario.set_iteration_limit 0) Scenario.world0 in
  bounds_converged w = false /\
  iteration_limit_reached w = true /\
  main_loop Scenario.env_optimal 1 (Scenario.start w) =
    Some (Ok (GuardExit, None) (Scenario.start w)) /\
  MindtPy_iteration_loop Scenario.env_optimal 1 (Scenario.start w) =
    Some (Ok tt (Scenario.start w)) /\
  termination_condition (solve_data w) = None.
Proof. cbv zeta. repeat split; reflexivity. Qed.

(** The same for every input: a loop whose guard is false on entry leaves the
    machine as it found it. *)
Lemma guard_false_on_entry (E : Collaborators) (fuel : nat) (m : Machine) :
  loop_guard (world m) = false ->
  main_loop E (S fuel) m = Some (Ok (GuardExit, None) m).
Proof. intros G. unfold main_loop; simpl. rewrite G. reflexivity. Qed.

(** When it is a termination check that finds the iteration limit, the
    condition is recorded. *)
Lemma iteration_limit_at_check (E : Collaborators) (cc : bool) (w : World) :
  bounds_converged w = false ->
  iteration_limit_reached w = true ->
  algorithm_should_terminate_pure E cc w =
  (true, on_data (set_termination_condition tc.maxIterations) w).
Proof.
  intros C I. unfold algorithm_should_terminate_pure. rewrite C, I.
  reflexivity.
Qed.

(** C9: when the [while] loop of [MindtPy_iteration_loop] is left through
    its guard and no [break] was taken, [last_iter_cuts] has never been
    assigned; with [config.add_nogood_cuts] true the call of [bound_fix]
    then raises an unbound-local error, in the state the loop left and with
    no call of the bound correction made. *)
Theorem guard_exit_unbound_last_iter_cuts
    (E : Collaborators) (fuel : nat) (m m' : Machine) (l : option bool) :
  first_active (working_model (solve_data (world m))) <> None ->
  main_loop E fuel m = Some (Ok (GuardExit, l) m') ->
  add_nogood_cuts (config (world m')) = true ->
  l = None /\
  MindtPy_iteration_loop E fuel m = Some (Raise UnboundLocalError m').
Proof.
  intros Hobj Hloop Hcuts.
  assert (Hl : l = None).
  { unfold main_loop in Hloop. apply while_loop_guard_exit in Hloop.
    apply Hloop. }
  subst l. split; [reflexivity|].
  unfold MindtPy_iteration_loop.
  destruct (first_active (working_model (solve_data (world m))));
    [|congruence].
  rewrite Hloop. unfold after_loop. unfold_monad. rewrite Hcuts. reflexivity.
Qed.

Lemma guard_exit_unbound_last_iter_cuts_witness :
  let w := on_config (Scenario.set_add_nogood_cuts true)
             (on_config (Scenario.set_iteration_limit 0) Scenario.world0) in
  MindtPy_iteration_loop Scenario.env_optimal 5 (Scenario.start w) =
  Some (Raise UnboundLocalError (Scenario.start w)).
Proof.
  cbv zeta.
  apply (@guard_exit_unbound_last_iter_cuts Scenario.env_optimal 5
           (Scenario.start
              (on_config (Scenario.set_add_nogood_cuts true)
                 (on_config (Scenario.set_iteration_limit 0)
                    Scenario.world0)))
           _ None).
  - simpl; discriminate.
  - reflexivity.
  - reflexivity.
Defined.

(** ** One pass through the loop body *)

Section PassFacts.

Variable E : Collaborators.

(** A pass whose first termination check is negative and whose master solve
    returns is at the branch on the master's termination condition. *)
Lemma iteration_at_master_branch l m w1 x res w2 :
  algorithm_should_terminate_pure E false (world m) = (false, w1) ->
  strategy_implemented (strategy (config w1)) = true ->
  solve_OA_master E (on_data (set_mip_subiter 0%Z) w1) =
    Returns (x, res) w2 ->
  iteration E l m =
  (match solver_termination_condition res with
   | tc.optimal =>
       call ev_handle_master_mip_optimal (handle_master_mip_optimal E x) ;;
       after_master_handler E x l
   | tc.infeasible =>
       call ev_handle_master_mip_infeasible
            (handle_master_mip_infeasible E x) ;;
       ret (Break, Some true)
   | _ =>
       call ev_handle_master_mip_other_conditions
            (handle_master_mip_other_conditions E x res) ;;
       after_master_handler E x l
   end) (mkMachine w2 (trace m ++ [ev_solve_OA_master])).
Proof.
  intros Hc Hs Hm. unfold iteration. unfold_monad.
  rewrite algorithm_should_terminate_run, Hc.
  cbn [fst snd world trace].
  change (config (on_data (set_mip_subiter 0%Z) w1)) with (config w1).
  rewrite Hs. cbn [world trace]. rewrite Hm. cbn [fst snd]. reflexivity.
Qed.

Lemma iteration_master_handled l m w1 x res w2 w3 :
  algorithm_should_terminate_pure E false (world m) = (false, w1) ->
  strategy_implemented (strategy (config w1)) = true ->
  solve_OA_master E (on_data (set_mip_subiter 0%Z) w1) =
    Returns (x, res) w2 ->
  solver_termination_condition res <> tc.infeasible ->
  snd (master_handler_call E x res) w2 = Returns tt w3 ->
  iteration E l m =
  after_master_handler E x l
    (mkMachine w3 (trace m ++ [ev_solve_OA_master;
                               fst (master_handler_call E x res)])).
Proof.
  intros Hc Hs Hm Hne Hh.
  rewrite (iteration_at_master_branch l m Hc Hs Hm).
  unfold master_handler_call in *.
  destruct (solver_termination_condition res);
    try congruence; cbn [fst snd] in *; unfold_monad;
    cbn [world trace]; rewrite Hh, <- app_assoc; reflexivity.
Qed.



Lemma handle_NLP_result_call y res :
  handle_NLP_result E y res =
  call (fst (NLP_handler_call E y res)) (snd (NLP_handler_call E y res)).
Proof.
  unfold handle_NLP_result, NLP_handler_call.
  destruct (solver_termination_condition res); reflexivity.
Qed.

(** What a pass decides is what the loop does once the passes before it
    have run. *)
Lemma while_loop_pass_break n k m0 l m l' m' :
  run_passes E n None m0 = Some (l, m) ->
  loop_guard (world m) = true ->
  iteration E l m = Ok (Break, l') m' ->
  while_loop E (n + S k) None m0 = Some (Ok (BreakExit, l') m').
Proof.
  intros Hp Hg Hi. rewrite (while_loop_after_passes E n (S k) _ _ Hp).
  simpl. rewrite Hg, Hi. reflexivity.
Qed.

Lemma while_loop_pass_raise n k m0 l m e m' :
  run_passes E n None m0 = Some (l, m) ->
  loop_guard (world m) = true ->
  iteration E l m = Raise e m' ->
  while_loop E (n + S k) None m0 = Some (Raise e m').
Proof.
  intros Hp Hg Hi. rewrite (while_loop_after_passes E n (S k) _ _ Hp).
  simpl. rewrite Hg, Hi. reflexivity.
Qed.

Lemma MindtPy_iteration_loop_raise fuel m e m' :
  first_active (working_model (solve_data (world m))) <> None ->
  main_loop E fuel m = Some (Raise e m') ->
  MindtPy_iteration_loop E fuel m = Some (Raise e m').
Proof.
  intros Ho Hl. unfold MindtPy_iteration_loop.
  destruct (first_active (working_model (solve_data (world m))));
    [|congruence].
  rewrite Hl. reflexivity.
Qed.

End PassFacts.

(** ** The branch on the master's termination condition *)



(** ** The callbacks *)

(** C7 fails after an infeasible master: the master problem is solved, its
    handler runs, the loop is left, and [call_after_master_solve] is never
    called. *)
Lemma infeasible_master_skips_callback :
  exists m',
    MindtPy_iteration_loop Scenario.env_infeasible 1
      (Scenario.start Scenario.world0) = Some (Ok tt m') /\
    trace m' = [ev_solve_OA_master; ev_handle_master_mip_infeasible] /\
    ~ In ev_call_after_master_solve (trace m').
Proof.
  eexists. split; [reflexivity|]. split; [reflexivity|].
  simpl. intros [H|[H|[]]]; discriminate.
Qed.

(** C7, amended: in every pass of the loop, after a master solve whose
    termination condition is not [infeasible] and whose handler returns,
    [call_after_master_solve] is called on the master model; after every NLP
    subproblem solve of the loop whose handler returns,
    [call_after_subproblem_solve] is called on the fixed NLP.  When the
    callback returns the pass goes on from the world it left; when it raises,
    the exception is the outcome of [MindtPy_iteration_loop]. *)
Theorem callbacks_after_subsolves (E : Collaborators) :
  (forall n m0 m l w1 w2 x res w3,
      first_active (working_model (solve_data (world m0))) <> None ->
      run_passes E n None m0 = Some (l, m) ->
      loop_guard (world m) = true ->
      algorithm_should_terminate_pure E false (world m) = (false, w1) ->
      strategy_implemented (strategy (config w1)) = true ->
      solve_OA_master E (on_data (set_mip_subiter 0%Z) w1) =
        Returns (x, res) w2 ->
      solver_termination_condition res <> tc.infeasible ->
      snd (master_handler_call E x res) w2 = Returns tt w3 ->
      let called :=
        trace m ++ [ev_solve_OA_master; fst (master_handler_call E x res);
                    ev_call_after_master_solve] in
      (forall w4, call_after_master_solve E x w3 = Returns tt w4 ->
         iteration E l m = after_master_callback E l (mkMachine w4 called)) /\
      (forall e w4, call_after_master_solve E x w3 = Raises e w4 ->
         forall k, MindtPy_iteration_loop E (n + S k) m0 =
                   Some (Raise e (mkMachine w4 called)))) /\
  (forall n m0 m l m4 w5 y res w6 w7,
      first_active (working_model (solve_data (world m0))) <> None ->
      run_passes E n None m0 = Some (l, m) ->
      loop_guard (world m) = true ->
      iteration E l m = after_master_callback E l m4 ->
      algorithm_should_terminate_pure E true (world m4) = (false, w5) ->
      single_tree (config w5) = false ->
      solve_NLP_subproblem E w5 = Returns (y, res) w6 ->
      snd (NLP_handler_call E y res) w6 = Returns tt w7 ->
      let called :=
        trace m4 ++ [ev_solve_NLP_subproblem; fst (NLP_handler_call E y res);
                     ev_call_after_subproblem_solve] in
      (forall w8, call_after_subproblem_solve E y w7 = Returns tt w8 ->
         iteration E l m = Ok (Continue, l) (mkMachine w8 called)) /\
      (forall e w8, call_after_subproblem_solve E y w7 = Raises e w8 ->
         forall k, MindtPy_iteration_loop E (n + S k) m0 =
                   Some (Raise e (mkMachine w8 called)))).
Proof.
  split.
  - intros n m0 m l w1 w2 x res w3 Ho Hp Hg Hc Hs Hm Hni Hh called.
    pose proof (iteration_master_handled E l m Hc Hs Hm Hni Hh) as Hit.
    assert (Hcalled :
      called = (trace m ++ [ev_solve_OA_master;
                            fst (master_handler_call E x res)])
               ++ [ev_call_after_master_solve]).
    { unfold called. rewrite <- app_assoc. reflexivity. }
    split.
    + intros w4 Hcb. rewrite Hit, Hcalled. unfold after_master_handler.
      unfold_monad. cbn [world trace]. rewrite Hcb. reflexivity.
    + intros e w4 Hcb k.
      apply MindtPy_iteration_loop_raise; [exact Ho|].
      apply (while_loop_pass_raise E n k m0 Hp Hg).
      rewrite Hit, Hcalled. unfold after_master_handler.
      unfold_monad. cbn [world trace]. rewrite Hcb. reflexivity.
  - intros n m0 m l m4 w5 y res w6 w7 Ho Hp Hg Hit Hc Hs Hn Hh called.
    assert (Hcalled :
      called = ((trace m4 ++ [ev_solve_NLP_subproblem])
                ++ [fst (NLP_handler_call E y res)])
               ++ [ev_call_after_subproblem_solve]).
    { unfold called. rewrite <- !app_assoc. reflexivity. }
    split.
    + intros w8 Hcb. rewrite Hit, Hcalled. unfold after_master_callback.
      unfold_monad. rewrite algorithm_should_terminate_run, Hc.
      cbn [fst snd world trace]. rewrite Hs. cbn [negb fst snd world trace].
      rewrite Hn. cbn [fst snd world trace].
      rewrite handle_NLP_result_call. unfold call.
      cbn [world trace]. rewrite Hh.
      cbn [world trace]. rewrite Hcb. reflexivity.
    + intros e w8 Hcb k.
      apply MindtPy_iteration_loop_raise; [exact Ho|].
      apply (while_loop_pass_raise E n k m0 Hp Hg).
      rewrite Hit, Hcalled. unfold after_master_callback.
      unfold_monad. rewrite algorithm_should_terminate_run, Hc.
      cbn [fst snd world trace]. rewrite Hs. cbn [negb fst snd world trace].
      rewrite Hn. cbn [fst snd world trace].
      rewrite handle_NLP_result_call. unfold call.
      cbn [world trace]. rewrite Hh.
      cbn [world trace]. rewrite Hcb. reflexivity.
Qed.

Lemma callbacks_after_subsolves_witness :
  MindtPy_iteration_loop Scenario.env_callback_fails 1
    (Scenario.start Scenario.world0) =
  Some (Raise (CollaboratorError 7)
          (mkMachine
             (on_data (fun d => Scenario.set_mip_iter 1 d)
                (on_data (set_mip_subiter 0%Z) Scenario.world0))
             [ev_solve_OA_master; ev_handle_master_mip_other_conditions;
              ev_call_after_master_solve])).
Proof.
  destruct (callbacks_after_subsolves Scenario.env_callback_fails)
    as [Hmaster _].
  assert (Hobj : first_active
            (working_model
               (solve_data (world (Scenario.start Scenario.world0))))
          <> None) by (simpl; discriminate).
  assert (Hres : solver_termination_condition
                   (mkSolverResults tc.other 0 0) <> tc.infeasible)
    by (simpl; discriminate).
  destruct (Hmaster 0%nat (Scenario.start Scenario.world0)
              (Scenario.start Scenario.world0) None Scenario.world0
              (on_data (fun d => Scenario.set_mip_iter 1 d)
                 (on_data (set_mip_subiter 0%Z) Scenario.world0))
              0%nat (mkSolverResults tc.other 0 0)
              (on_data (fun d => Scenario.set_mip_iter 1 d)
                 (on_data (set_mip_subiter 0%Z) Scenario.world0))
              Hobj eq_refl eq_refl eq_refl eq_refl eq_refl Hres eq_refl)
    as [_ Hraise].
  exact (Hraise (CollaboratorError 7) _ eq_refl 0%nat).
Defined.

(** ** The cycling check *)

(** C5 fails when an earlier test of the check holds: the integer solution
    repeats, [cycling_check] is on and [mip_iter] is 1, but the bounds have
    converged, so the second termination check records [optimal], not
    [feasible], and leaves [prev_int_sol] and [curr_int_sol] alone. *)
Lemma cycling_hidden_by_bound_convergence :
  let w := Scenario.world_cycling_converged in
  let w' := snd (algorithm_should_terminate_pure Scenario.env_optimal true w)
  in
  cycling_check (config w) = true /\
  (1 <= mip_iter (solve_data w))%Z /\
  rounded_integer_values (mip_vars (solve_data w))
    = prev_int_sol (solve_data w) /\
  termination_condition (solve_data w') = Some tc.optimal /\
  termination_condition (solve_data w') <> Some tc.feasible /\
  curr_int_sol (solve_data w') = [].
Proof.
  cbv zeta. repeat split; try reflexivity.
  simpl; discriminate.
Qed.

(** C5, amended: the first termination check of a pass never compares
    integer solutions.  In the second one, with [cycling_check] enabled,
    [mip_iter >= 1] and none of bound convergence, iteration limit and time
    limit holding: when the rounded values of the integer variables of the
    master solution equal [prev_int_sol], [feasible] is recorded and the loop
    is left with no further call (the NLP subproblem is not solved in this
    pass); otherwise the check is negative and [prev_int_sol] becomes the
    current assignment. *)
Theorem cycling_check_in_second_termination_check (E : Collaborators) :
  (forall w,
      let w' := snd (algorithm_should_terminate_pure E false w) in
      curr_int_sol (solve_data w') = curr_int_sol (solve_data w) /\
      prev_int_sol (solve_data w') = prev_int_sol (solve_data w) /\
      (termination_condition (solve_data w') = Some tc.feasible ->
       termination_condition (solve_data w) = Some tc.feasible)) /\
  (forall n m0 m l m4,
      let w := world m4 in
      let temp := rounded_integer_values (mip_vars (solve_data w)) in
      let compared := on_data (set_curr_int_sol temp) w in
      run_passes E n None m0 = Some (l, m) ->
      loop_guard (world m) = true ->
      iteration E l m = after_master_callback E l m4 ->
      cycling_check (config w) = true ->
      (1 <= mip_iter (solve_data w))%Z ->
      ~ UB (solve_data w) <= LB (solve_data w) + bound_tolerance (config w) ->
      (mip_iter (solve_data w) < iteration_limit (config w))%Z ->
      ~ time_limit (config w) <= get_main_elapsed_time E w ->
      (temp = prev_int_sol (solve_data w) ->
       forall k,
         while_loop E (n + S k) None m0 =
         Some (Ok (BreakExit, Some false)
                  (mkMachine
                     (on_data (set_termination_condition tc.feasible) compared)
                     (trace m4)))) /\
      (temp <> prev_int_sol (solve_data w) ->
       algorithm_should_terminate E true m4 =
       Ok false (mkMachine (on_data (set_prev_int_sol temp) compared)
                           (trace m4)))).
Proof.
  split.
  - intros w. cbv zeta. unfold algorithm_should_terminate_pure.
    rewrite !andb_false_r.
    repeat break_match; simpl; repeat split; congruence.
  - intros n m0 m l m4 w temp compared Hp Hg Hit Hcyc Hiter Hconv Hlim Htime.
    assert (Hpure : algorithm_should_terminate_pure E true w =
              if int_list_eqb temp (prev_int_sol (solve_data w)) then
                (true, on_data (set_termination_condition tc.feasible)
                         compared)
              else (false, on_data (set_prev_int_sol temp) compared)).
    { unfold algorithm_should_terminate_pure.
      apply Qle_bool_false in Hconv. apply Qle_bool_false in Htime.
      unfold bounds_converged, iteration_limit_reached, time_limit_reached.
      rewrite Hconv, Htime.
      replace (iteration_limit (config w) <=? mip_iter (solve_data w))%Z
        with false by (symmetry; apply Z.leb_gt; exact Hlim).
      rewrite Hcyc.
      replace (1 <=? mip_iter (solve_data w))%Z with true
        by (symmetry; apply Z.leb_le; exact Hiter).
      reflexivity. }
    split.
    + intros Heq k.
      apply (while_loop_pass_break E n k m0 Hp Hg).
      rewrite Hit. unfold after_master_callback. unfold_monad.
      rewrite algorithm_should_terminate_run. fold w. rewrite Hpure.
      replace (int_list_eqb temp (prev_int_sol (solve_data w))) with true
        by (symmetry; apply int_list_eqb_eq; exact Heq).
      reflexivity.
    + intros Hne.
      rewrite algorithm_should_terminate_run. fold w. rewrite Hpure.
      destruct (int_list_eqb temp (prev_int_sol (solve_data w))) eqn:Heq.
      * apply int_list_eqb_eq in Heq. contradiction.
      * reflexivity.
Qed.

Lemma cycling_check_in_second_termination_check_witness :
  while_loop Scenario.env_optimal 2 None (Scenario.start Scenario.world0) =
  Some (Ok (BreakExit, Some false)
          (mkMachine
             (on_data (set_termination_condition tc.feasible)
                (on_data (set_curr_int_sol [2%Z; 2%Z])
                   (world Scenario.at_second_check)))
             [ev_solve_OA_master; ev_handle_master_mip_optimal;
              ev_call_after_master_solve; ev_solve_NLP_subproblem;
              ev_handle_NLP_subproblem_optimal;
              ev_call_after_subproblem_solve; ev_solve_OA_master;
              ev_handle_master_mip_optimal; ev_call_after_master_solve])).
Proof.
  destruct (cycling_check_in_second_termination_check Scenario.env_optimal)
    as [_ Hsecond].
  assert (Hconv : ~ UB (solve_data (world Scenario.at_second_check))
                    <= LB (solve_data (world Scenario.at_second_check))
                       + bound_tolerance
                           (config (world Scenario.at_second_check)))
    by (unfold Qle; simpl; lia).
  assert (Htime : ~ time_limit (config (world Scenario.at_second_check))
                    <= get_main_elapsed_time Scenario.env_optimal
                         (world Scenario.at_second_check))
    by (unfold Qle; simpl; lia).
  assert (Hiter : (1 <= mip_iter
                          (solve_data (world Scenario.at_second_check)))%Z)
    by (simpl; lia).
  assert (Hlim : (mip_iter (solve_data (world Scenario.at_second_check))
                  < iteration_limit
                      (config (world Scenario.at_second_check)))%Z)
    by (simpl; lia).
  destruct (Hsecond 1%nat (Scenario.start Scenario.world0)
              Scenario.after_first_pass None Scenario.at_second_check
              eq_refl eq_refl eq_refl eq_refl Hiter Hconv Hlim Htime)
    as [Hcycle _].
  exact (Hcycle eq_refl 0%nat).
Defined.

(** ** The bound correction *)

Section BoundFix.

Variable E : Collaborators.

(** A [resolve_master] that returns has deactivated a cut, solved the
    master problem once and recorded the bound that solve reports. *)
Lemma resolve_master_returns m m' :
  resolve_master E m = Ok tt m' ->
  exists args w_pre res w_post o post,
    masteropt_solve E args w_pre = Returns res w_post /\
    first_active (working_model (solve_data w_post)) = Some o /\
    world m' =
      record_bound_convergence
        (on_data (record_fixed_bound (sense o) res) w_post) /\
    trace m' = trace m ++ post /\
    bound_correction_performed post = true /\
    NLP_subproblem_solved post = false.
Proof.
  unfold resolve_master, deactivate_last_integer_cut, make_mip_args.
  unfold_monad. intros H.
  repeat (break_match; try discriminate);
    inversion H; subst; clear H;
    cbn [world trace] in *;
    repeat match goal with
           | Hx : Ok _ _ = Ok _ _ |- _ => inversion Hx; subst; clear Hx
           end;
    cbn [world trace] in *;
    (eexists _, _, _, _, _, _;
     split; [eassumption|];
     split; [eassumption|];
     split; [reflexivity|];
     split; [rewrite <- ?app_assoc; reflexivity|];
     split; reflexivity).
Qed.

(** The NLP stage of [bound_fix], when it returns: the subproblem solve and
    one of its handlers, and no callback. *)
Lemma NLP_stage_returns m m1 :
  (r <- call ev_solve_NLP_subproblem (solve_NLP_subproblem E) ;;
   handle_NLP_result E (fst r) (snd r)) m = Ok tt m1 ->
  exists ev, is_NLP_handler ev = true /\
             trace m1 = trace m ++ [ev_solve_NLP_subproblem; ev].
Proof.
  unfold_monad. intros H.
  destruct (solve_NLP_subproblem E (world m)) as [[y res] w|];
    [|discriminate].
  rewrite handle_NLP_result_call in H.
  exists (fst (NLP_handler_call E y res)). split.
  - unfold NLP_handler_call.
    destruct (solver_termination_condition res); reflexivity.
  - unfold call in H. cbn [fst snd world trace] in H.
    destruct (snd (NLP_handler_call E y res) w); inversion H; subst.
    cbn [trace]. rewrite <- app_assoc. reflexivity.
Qed.

Lemma bound_fix_returns b m m' :
  bound_fix E b m = Ok tt m' ->
  exists args w_pre res w_post o post,
    masteropt_solve E args w_pre = Returns res w_post /\
    first_active (working_model (solve_data w_post)) = Some o /\
    world m' =
      record_bound_convergence
        (on_data (record_fixed_bound (sense o) res) w_post) /\
    trace m' = trace m ++ post /\
    bound_correction_performed post = true /\
    NLP_subproblem_solved post = negb b.
Proof.
  unfold bound_fix. destruct b; cbn [negb].
  - unfold_monad. cbn [world trace]. intros H.
    apply resolve_master_returns in H. exact H.
  - unfold bind at 1. unfold modify at 1. unfold bind at 1.
    set (m1 := mkMachine _ (trace m)).
    destruct ((r <- call ev_solve_NLP_subproblem (solve_NLP_subproblem E) ;;
               handle_NLP_result E (fst r) (snd r)) m1)
      as [[] m2|] eqn:Hnlp; [|discriminate].
    intros H. apply NLP_stage_returns in Hnlp.
    destruct Hnlp as (ev & Hev & Htr).
    apply resolve_master_returns in H.
    destruct H as (args & w_pre & res & w_post & o & post
                   & Hs & Ho & Hw & Ht & Hp & Hn).
    exists args, w_pre, res, w_post, o,
      ([ev_solve_NLP_subproblem; ev] ++ post).
    repeat split; try assumption.
    + rewrite Ht, Htr. subst m1. cbn [trace].
      rewrite <- app_assoc. reflexivity.
    + unfold bound_correction_performed, count_events in *.
      cbn [app filter is_deactivate_integer_cut is_masteropt_solve].
      destruct ev; try discriminate; exact Hp.
Qed.

End BoundFix.

(** C6 fails when the loop is left at the second termination check: there
    [last_iter_cuts] is false, and with [add_nogood_cuts] the bound
    correction is performed all the same, after one more NLP subproblem
    solve. *)
Lemma bound_correction_without_last_iter_cuts :
  let post := [ev_solve_NLP_subproblem; ev_handle_NLP_subproblem_optimal;
               ev_deactivate_integer_cut 1; ev_masteropt_solve None] in
  add_nogood_cuts (config Scenario.world_nogood) = true /\
  main_loop Scenario.env_optimal 5 (Scenario.start Scenario.world_nogood) =
    Some (Ok (BreakExit, Some false) Scenario.nogood_loop_end) /\
  MindtPy_iteration_loop Scenario.env_optimal 5
    (Scenario.start Scenario.world_nogood) =
    Some (Ok tt Scenario.nogood_run_end) /\
  trace Scenario.nogood_run_end = trace Scenario.nogood_loop_end ++ post /\
  bound_correction_performed post = true /\
  integer_cuts (solve_data (world Scenario.nogood_run_end)) = [false] /\
  LB_progress (solve_data (world Scenario.nogood_run_end)) =
    LB_progress (solve_data (world Scenario.nogood_loop_end)) ++ [6].
Proof. cbv zeta. repeat split; reflexivity. Qed.

(** ** The progress lists *)

Section Monotone.

Variable R : Q -> Q -> Prop.
Hypothesis R_refl : forall a, R a a.
Hypothesis R_trans : forall a b c, R a b -> R b c -> R a c.




(** A running best over a list is related to its start and to every
    entry. *)
Lemma fold_best (step : Q -> Q -> Q) :
  (forall m y, R m (step m y) /\ R y (step m y)) ->
  forall xs m,
    R m (fold_left step xs m) /\
    (forall y, In y xs -> R y (fold_left step xs m)).
Proof.
  intros Hstep. induction xs as [|x xs IH]; intros m; simpl.
  - split; [apply R_refl | intros y []].
  - destruct (IH (step m x)) as [H1 H2]. destruct (Hstep m x) as [Hm Hx].
    split.
    + eapply R_trans; eassumption.
    + intros y [<-|Hy].
      * eapply R_trans; eassumption.
      * apply H2; exact Hy.
Qed.

End Monotone.

Lemma py_max_upper (x : Q) (xs : list Q) :
  x <= py_max x xs /\ (forall y, In y xs -> y <= py_max x xs).
Proof.
  unfold py_max. apply (fold_best Qle Qle_refl Qle_trans).
  intros m y. destruct (Qgt_bool y m) eqn:H.
  - apply Qgt_bool_true in H. split; [apply Qlt_le_weak; exact H|].
    apply Qle_refl.
  - apply Qgt_bool_false in H. split; [apply Qle_refl | exact H].
Qed.

Lemma py_min_lower (x : Q) (xs : list Q) :
  py_min x xs <= x /\ (forall y, In y xs -> py_min x xs <= y).
Proof.
  unfold py_min.
  apply (fold_best (fun a b => b <= a) Qle_refl
           (fun a b c H1 H2 => Qle_trans _ _ _ H2 H1)).
  intros m y. destruct (Qgt_bool m y) eqn:H.
  - apply Qgt_bool_true in H. split; [apply Qlt_le_weak; exact H|].
    apply Qle_refl.
  - apply Qgt_bool_false in H. split; [apply Qle_refl | exact H].
Qed.

Section Keeps.

Variable P : World -> Prop.

Lemma keeps_ret A (a : A) : keeps P (ret a).
Proof. intros m H; exact H. Qed.


Lemma keeps_gets A (f : World -> A) : keeps P (gets f).
Proof. intros m H; exact H. Qed.

Lemma keeps_bind A B (c : M A) (k : A -> M B) :
  keeps P c -> (forall a, keeps P (k a)) -> keeps P (bind c k).
Proof.
  intros Hc Hk m H. unfold bind. specialize (Hc m H).
  destruct (c m) as [a m'|e m']; simpl in Hc.
  - apply Hk; exact Hc.
  - exact Hc.
Qed.

Lemma keeps_call A (ev : event) (f : World -> result A) :
  (forall w, P w -> P (result_world (f w))) -> keeps P (call ev f).
Proof.
  intros Hf m H. unfold call. specialize (Hf (world m) H).
  destruct (f (world m)); exact Hf.
Qed.

End Keeps.


(** * Further properties of the termination check *)

Section CheckFacts.

Variable E : Collaborators.

Lemma same_for_loop_refl w : same_for_loop w w.
Proof. repeat split. Qed.

Lemma same_for_loop_trans w1 w2 w3 :
  same_for_loop w1 w2 -> same_for_loop w2 w3 -> same_for_loop w1 w3.
Proof.
  unfold same_for_loop.
  intros (A1 & A2 & A3 & A4 & A5 & A6 & A7 & A8 & A9)
         (B1 & B2 & B3 & B4 & B5 & B6 & B7 & B8 & B9).
  repeat split; congruence.
Qed.

Lemma check_same_for_loop cc w :
  same_for_loop w (snd (algorithm_should_terminate_pure E cc w)).
Proof.
  unfold algorithm_should_terminate_pure.
  repeat break_match; repeat split.
Qed.

Lemma loop_guard_limit w :
  loop_guard w = negb (iteration_limit_reached w).
Proof.
  unfold loop_guard, iteration_limit_reached.
  destruct (Z.ltb_spec (mip_iter (solve_data w)) (iteration_limit (config w)));
    destruct (Z.leb_spec (iteration_limit (config w))
                         (mip_iter (solve_data w))); simpl; lia.
Qed.

Lemma check_positive_records cc w w' :
  algorithm_should_terminate_pure E cc w = (true, w') -> stop_recorded w'.
Proof.
  unfold algorithm_should_terminate_pure, stop_recorded.
  intros H. repeat break_match; inversion H; subst; simpl;
    eexists; split; reflexivity.
Qed.

Lemma check_negative cc w w' :
  algorithm_should_terminate_pure E cc w = (false, w') ->
  bounds_converged w = false /\
  iteration_limit_reached w = false /\
  time_limit_reached E w = false /\
  termination_condition (solve_data w')
    = termination_condition (solve_data w).
Proof.
  unfold algorithm_should_terminate_pure.
  intros H. repeat break_match; inversion H; subst; simpl;
    repeat split; reflexivity.
Qed.

Lemma int_list_eqb_refl l : int_list_eqb l l = true.
Proof. apply int_list_eqb_eq. reflexivity. Qed.

End CheckFacts.



(** X2: a negative check means that the bounds are apart by more than the
    tolerance, that iterations are left and that time is left, and it leaves
    the recorded termination condition alone; a positive check has recorded
    one of [optimal], [maxIterations], [maxTimeLimit] and [feasible], and
    [feasible] only when it was asked to check cycling. *)
Theorem algorithm_should_terminate_verdict
    (E : Collaborators) (check_cycling : bool) (w : World) :
  let b := fst (algorithm_should_terminate_pure E check_cycling w) in
  let w' := snd (algorithm_should_terminate_pure E check_cycling w) in
  (b = false ->
   LB (solve_data w) + bound_tolerance (config w) < UB (solve_data w) /\
   (mip_iter (solve_data w) < iteration_limit (config w))%Z /\
   get_main_elapsed_time E w < time_limit (config w) /\
   termination_condition (solve_data w')
     = termination_condition (solve_data w)) /\
  (b = true ->
   exists c, termination_condition (solve_data w') = Some c /\
             is_stop_condition c = true /\
             (c = tc.feasible -> check_cycling = true)).
Proof.
  cbv zeta.
  destruct (algorithm_should_terminate_pure E check_cycling w) as [b w']
    eqn:Hrun.
  cbn [fst snd]. split; intros ->.
  - destruct (check_negative E _ _ Hrun) as (Hc & Hi & Ht & Htc).
    repeat split.
    + apply Qnot_le_lt. apply Qle_bool_false. exact Hc.
    + apply Z.leb_gt. exact Hi.
    + apply Qnot_le_lt. apply Qle_bool_false. exact Ht.
    + exact Htc.
  - unfold algorithm_should_terminate_pure in Hrun.
    repeat break_match; inversion Hrun; subst; simpl;
      eexists; (split; [reflexivity|]); (split; [reflexivity|]);
      try discriminate.
    intros _. rewrite !andb_true_iff in *. tauto.
Qed.

Lemma algorithm_should_terminate_verdict_witness :
  let w := Cases.world_second_check in
  LB (solve_data w) + bound_tolerance (config w) < UB (solve_data w) /\
  (mip_iter (solve_data w) < iteration_limit (config w))%Z /\
  get_main_elapsed_time Scenario.env_optimal w < time_limit (config w) /\
  termination_condition
    (solve_data (snd (algorithm_should_terminate_pure Scenario.env_optimal
                        true w)))
  = termination_condition (solve_data w).
Proof.
  cbv zeta.
  destruct (algorithm_should_terminate_verdict Scenario.env_optimal true
              Cases.world_second_check) as [Hneg _].
  exact (Hneg eq_refl).
Defined.

(** X3: the check with [check_cycling] is not idempotent.  A negative check
    that compared the integer solutions has stored the current one as the
    previous one, so the same check asked again, with time still left,
    reports cycling and records [feasible]. *)
Theorem repeated_cycling_check_reports_cycle
    (E : Collaborators) (w w1 : World) :
  algorithm_should_terminate_pure E true w = (false, w1) ->
  cycling_check (config w) = true ->
  (1 <= mip_iter (solve_data w))%Z ->
  get_main_elapsed_time E w1 < time_limit (config w1) ->
  fst (algorithm_should_terminate_pure E true w1) = true /\
  termination_condition
    (solve_data (snd (algorithm_should_terminate_pure E true w1)))
  = Some tc.feasible.
Proof.
  intros Hrun Hcyc Hiter Htime.
  destruct (check_negative E _ _ Hrun) as (Hc & Hi & _ & _).
  pose proof (check_same_for_loop E true w) as Hsame.
  rewrite Hrun in Hsame. cbn [snd] in Hsame.
  destruct Hsame as (Hcfg & _ & Hmi & HLB & HUB & _ & _ & Hvars & _).
  assert (Hprev : prev_int_sol (solve_data w1)
                  = rounded_integer_values (mip_vars (solve_data w))).
  { unfold algorithm_should_terminate_pure in Hrun.
    rewrite Hc, Hi in Hrun.
    replace (1 <=? mip_iter (solve_data w))%Z with true in Hrun
      by (symmetry; apply Z.leb_le; exact Hiter).
    rewrite Hcyc in Hrun. cbn [andb] in Hrun.
    repeat break_match; inversion Hrun; subst; reflexivity. }
  assert (Hc1 : bounds_converged w1 = false).
  { unfold bounds_converged in *. rewrite Hcfg, HLB, HUB. exact Hc. }
  assert (Hi1 : iteration_limit_reached w1 = false).
  { unfold iteration_limit_reached in *. rewrite Hcfg, Hmi. exact Hi. }
  assert (Ht1 : time_limit_reached E w1 = false).
  { unfold time_limit_reached. apply Qle_bool_false.
    apply Qlt_not_le. exact Htime. }
  unfold algorithm_should_terminate_pure.
  rewrite Hc1, Hi1, Ht1, Hcfg, Hcyc, Hmi.
  replace (1 <=? mip_iter (solve_data w))%Z with true
    by (symmetry; apply Z.leb_le; exact Hiter).
  cbn [andb]. cbv zeta. cbn [on_data solve_data set_curr_int_sol
                               curr_int_sol prev_int_sol].
  rewrite Hprev, Hvars, int_list_eqb_refl. split; reflexivity.
Qed.

Lemma repeated_cycling_check_reports_cycle_witness :
  let w1 := snd (algorithm_should_terminate_pure Scenario.env_optimal true
                   Cases.world_second_check) in
  fst (algorithm_should_terminate_pure Scenario.env_optimal true w1) = true /\
  termination_condition
    (solve_data (snd (algorithm_should_terminate_pure Scenario.env_optimal
                        true w1)))
  = Some tc.feasible.
Proof.
  cbv zeta.
  apply (@repeated_cycling_check_reports_cycle Scenario.env_optimal
           Cases.world_second_check).
  - reflexivity.
  - reflexivity.
  - simpl; lia.
  - unfold Qlt; simpl; lia.
Defined.

(** * Further properties of a pass and of the loop *)

Section PassShape.

Variable E : Collaborators.

Lemma NLP_handler_call_event y res :
  is_NLP_handler (fst (NLP_handler_call E y res)) = true.
Proof.
  unfold NLP_handler_call.
  destruct (solver_termination_condition res); reflexivity.
Qed.

Lemma master_handler_call_event x res :
  solver_termination_condition res <> tc.infeasible ->
  is_continuing_master_handler (fst (master_handler_call E x res)) = true.
Proof.
  unfold master_handler_call.
  destruct (solver_termination_condition res); congruence || reflexivity.
Qed.

Lemma master_branch_continuing x res l :
  solver_termination_condition res <> tc.infeasible ->
  master_branch E x res l =
  (call (fst (master_handler_call E x res))
        (snd (master_handler_call E x res)) ;;
   after_master_handler E x l).
Proof.
  unfold master_branch, master_handler_call.
  destruct (solver_termination_condition res); congruence || reflexivity.
Qed.

(** Every way a pass can go, from the first termination check to the branch
    on the master's result. *)
Lemma iteration_cases l m :
  match algorithm_should_terminate_pure E false (world m) with
  | (true, w1) =>
      iteration E l m = Ok (Break, Some true) (mkMachine w1 (trace m))
  | (false, w1) =>
      if strategy_implemented (strategy (config w1)) then
        match solve_OA_master E (on_data (set_mip_subiter 0%Z) w1) with
        | Returns (x, res) w2 =>
            iteration E l m =
            master_branch E x res l
              (mkMachine w2 (trace m ++ [ev_solve_OA_master]))
        | Raises e w2 =>
            iteration E l m =
            Raise e (mkMachine w2 (trace m ++ [ev_solve_OA_master]))
        end
      else
        iteration E l m =
        Raise NotImplementedError
          (mkMachine (on_data (set_mip_subiter 0%Z) w1) (trace m))
  end.
Proof.
  destruct (algorithm_should_terminate_pure E false (world m)) as [b w1]
    eqn:Hc.
  destruct b.
  - unfold iteration. unfold_monad.
    rewrite algorithm_should_terminate_run, Hc. reflexivity.
  - destruct (strategy_implemented (strategy (config w1))) eqn:Hs.
    + destruct (solve_OA_master E (on_data (set_mip_subiter 0%Z) w1))
        as [[x res] w2|e w2] eqn:Hm.
      * apply (iteration_at_master_branch E l m Hc Hs Hm).
      * unfold iteration. unfold_monad.
        rewrite algorithm_should_terminate_run, Hc.
        cbn [fst snd world trace].
        change (config (on_data (set_mip_subiter 0%Z) w1)) with (config w1).
        rewrite Hs. cbn [world trace]. rewrite Hm. reflexivity.
    + unfold iteration. unfold_monad.
      rewrite algorithm_should_terminate_run, Hc.
      cbn [fst snd world trace].
      change (config (on_data (set_mip_subiter 0%Z) w1)) with (config w1).
      rewrite Hs. reflexivity.
Qed.

Lemma after_master_callback_continue_shape l m l' m' :
  after_master_callback E l m = Ok (Continue, l') m' ->
  (single_tree (config (world m')) = true /\ trace m' = trace m) \/
  (exists hn, is_NLP_handler hn = true /\
              trace m' = trace m ++ [ev_solve_NLP_subproblem; hn;
                                     ev_call_after_subproblem_solve]).
Proof.
  unfold after_master_callback. unfold_monad.
  rewrite algorithm_should_terminate_run.
  destruct (algorithm_should_terminate_pure E true (world m)) as [b w1].
  cbn [fst snd world trace]. destruct b; [discriminate|].
  cbn [fst snd world trace].
  destruct (single_tree (config w1)) eqn:Hs; cbn [negb fst snd world trace].
  - intros H; inversion H; subst. left. split; [exact Hs | reflexivity].
  - destruct (solve_NLP_subproblem E w1) as [[y res] w2|]; [|discriminate].
    cbn [fst snd world trace]. rewrite handle_NLP_result_call. unfold call.
    cbn [world trace].
    destruct (snd (NLP_handler_call E y res) w2); [|discriminate].
    cbn [world trace].
    destruct (call_after_subproblem_solve E y w); [|discriminate].
    intros H; inversion H; subst. right.
    exists (fst (NLP_handler_call E y res)).
    split; [apply NLP_handler_call_event|].
    cbn [trace]. rewrite <- !app_assoc. reflexivity.
Qed.

Lemma after_master_callback_break_shape l m l' m' :
  after_master_callback E l m = Ok (Break, l') m' ->
  l' = Some false /\ trace m' = trace m /\ stop_recorded (world m').
Proof.
  unfold after_master_callback. unfold_monad.
  rewrite algorithm_should_terminate_run.
  destruct (algorithm_should_terminate_pure E true (world m)) as [b w1]
    eqn:Hc.
  cbn [fst snd world trace]. destruct b.
  - intros H; inversion H; subst. repeat split.
    apply (check_positive_records E _ _ Hc).
  - intros H. repeat break_match; discriminate.
Qed.

Lemma master_branch_continue_shape x res l m l' m' :
  master_branch E x res l m = Ok (Continue, l') m' ->
  exists h, is_continuing_master_handler h = true /\
    ((single_tree (config (world m')) = true /\
      trace m' = trace m ++ [h; ev_call_after_master_solve]) \/
     (exists hn, is_NLP_handler hn = true /\
        trace m' = trace m ++ [h; ev_call_after_master_solve;
                               ev_solve_NLP_subproblem; hn;
                               ev_call_after_subproblem_solve])).
Proof.
  assert (Hdec : solver_termination_condition res = tc.infeasible \/
                solver_termination_condition res <> tc.infeasible)
    by (destruct (solver_termination_condition res);
        (left; reflexivity) || (right; discriminate)).
  destruct Hdec as [Hi|Hn].
  - unfold master_branch. rewrite Hi. unfold_monad.
    intros H. break_match; discriminate.
  - rewrite (@master_branch_continuing x res l Hn).
    unfold bind at 1. unfold call.
    destruct (snd (master_handler_call E x res) (world m)); [|discriminate].
    unfold after_master_handler. unfold bind at 1. unfold call.
    cbn [world trace].
    destruct (call_after_master_solve E x w); [|discriminate].
    intros H. exists (fst (master_handler_call E x res)).
    split; [apply master_handler_call_event; exact Hn|].
    apply after_master_callback_continue_shape in H. cbn [trace] in H.
    destruct H as [[Hs Ht]|(hn & Hh & Ht)].
    + left. split; [exact Hs|]. rewrite Ht, <- app_assoc. reflexivity.
    + right. exists hn. split; [exact Hh|].
      rewrite Ht, <- !app_assoc. reflexivity.
Qed.

End PassShape.

Section LoopShape.

Variable E : Collaborators.

Lemma master_branch_break_shape x res l m l' m' :
  master_branch E x res l m = Ok (Break, l') m' ->
  (l' = Some true /\
   trace m' = trace m ++ [ev_handle_master_mip_infeasible]) \/
  (l' = Some false /\ stop_recorded (world m') /\
   exists h, is_continuing_master_handler h = true /\
             trace m' = trace m ++ [h; ev_call_after_master_solve]).
Proof.
  assert (Hdec : solver_termination_condition res = tc.infeasible \/
                solver_termination_condition res <> tc.infeasible)
    by (destruct (solver_termination_condition res);
        (left; reflexivity) || (right; discriminate)).
  destruct Hdec as [Hi|Hn].
  - unfold master_branch. rewrite Hi. unfold_monad.
    destruct (handle_master_mip_infeasible E x (world m)); [|discriminate].
    intros H; inversion H; subst. left. split; reflexivity.
  - rewrite (@master_branch_continuing E x res l Hn).
    unfold bind at 1. unfold call.
    destruct (snd (master_handler_call E x res) (world m)); [|discriminate].
    unfold after_master_handler. unfold bind at 1. unfold call.
    cbn [world trace].
    destruct (call_after_master_solve E x w); [|discriminate].
    intros H. apply after_master_callback_break_shape in H.
    cbn [trace] in H. destruct H as (Hl & Ht & Hrec).
    right. split; [exact Hl|]. split; [exact Hrec|].
    exists (fst (master_handler_call E x res)).
    split; [apply master_handler_call_event; exact Hn|].
    rewrite Ht, <- app_assoc. reflexivity.
Qed.

Lemma iteration_continue_shape l m l' m' :
  iteration E l m = Ok (Continue, l') m' ->
  exists h, is_continuing_master_handler h = true /\
    ((single_tree (config (world m')) = true /\
      trace m' = trace m ++ [ev_solve_OA_master; h;
                             ev_call_after_master_solve]) \/
     (exists hn, is_NLP_handler hn = true /\
        trace m' = trace m ++ [ev_solve_OA_master; h;
                               ev_call_after_master_solve;
                               ev_solve_NLP_subproblem; hn;
                               ev_call_after_subproblem_solve])).
Proof.
  intros H. pose proof (iteration_cases E l m) as Hcases.
  destruct (algorithm_should_terminate_pure E false (world m)) as [[|] w1];
    [congruence|].
  destruct (strategy_implemented (strategy (config w1))); [|congruence].
  destruct (solve_OA_master E (on_data (set_mip_subiter 0%Z) w1))
    as [[x res] w2|e w2]; [|congruence].
  rewrite Hcases in H. apply master_branch_continue_shape in H.
  cbn [trace] in H. destruct H as (h & Hh & [[Hs Ht]|(hn & Hhn & Ht)]).
  - exists h. split; [exact Hh|]. left. split; [exact Hs|].
    rewrite Ht, <- app_assoc. reflexivity.
  - exists h. split; [exact Hh|]. right. exists hn. split; [exact Hhn|].
    rewrite Ht, <- app_assoc. reflexivity.
Qed.

Lemma iteration_break_shape l m l' m' :
  iteration E l m = Ok (Break, l') m' ->
  (l' = Some true /\ trace m' = trace m /\ stop_recorded (world m')) \/
  (l' = Some true /\
   trace m' = trace m ++ [ev_solve_OA_master;
                          ev_handle_master_mip_infeasible]) \/
  (l' = Some false /\ stop_recorded (world m') /\
   exists h, is_continuing_master_handler h = true /\
             trace m' = trace m ++ [ev_solve_OA_master; h;
                                    ev_call_after_master_solve]).
Proof.
  intros H. pose proof (iteration_cases E l m) as Hcases.
  destruct (algorithm_should_terminate_pure E false (world m)) as [[|] w1]
    eqn:Hc.
  - rewrite Hcases in H. inversion H; subst. left.
    repeat split. apply (check_positive_records E _ _ Hc).
  - destruct (strategy_implemented (strategy (config w1))); [|congruence].
    destruct (solve_OA_master E (on_data (set_mip_subiter 0%Z) w1))
      as [[x res] w2|e w2]; [|congruence].
    rewrite Hcases in H. apply master_branch_break_shape in H.
    cbn [trace] in H. right.
    destruct H as [[Hl Ht]|(Hl & Hrec & h & Hh & Ht)].
    + left. split; [exact Hl|]. rewrite Ht, <- app_assoc. reflexivity.
    + right. split; [exact Hl|]. split; [exact Hrec|].
      exists h. split; [exact Hh|]. rewrite Ht, <- app_assoc. reflexivity.
Qed.

(** A loop left by [break] has run some complete passes and then a pass that
    broke. *)
Lemma while_loop_break_inv fuel l m l' m' :
  while_loop E fuel l m = Some (Ok (BreakExit, l') m') ->
  exists n m0,
    (n < fuel)%nat /\
    run_passes E n l m = Some (l, m0) /\
    loop_guard (world m0) = true /\
    iteration E l m0 = Ok (Break, l') m'.
Proof.
  revert l m. induction fuel as [|fuel IH]; intros l m; simpl.
  - discriminate.
  - destruct (loop_guard (world m)) eqn:G; [|discriminate].
    destruct (iteration E l m) as [[[|] l1] m1|] eqn:It; try discriminate.
    + intros H. pose proof (iteration_continue E _ _ It) as ->.
      apply IH in H. destruct H as (n & m0 & Hn & Hp & Hg & Hi).
      exists (S n), m0. split; [lia|]. split; [|split; assumption].
      simpl. rewrite G, It. exact Hp.
    + intros H; inversion H; subst.
      exists 0%nat, m. split; [lia|]. split; [reflexivity|].
      split; [exact G | exact It].
Qed.

Lemma count_events_app p (a b : list event) :
  count_events p (a ++ b) = (count_events p a + count_events p b)%nat.
Proof. unfold count_events. rewrite filter_app, length_app. reflexivity. Qed.

End LoopShape.

(** X4: whenever the loop is left by [break], [last_iter_cuts] is bound, and
    its value tells how the last pass went.  It is true when the first
    termination check stopped the pass before any call (a stop condition is
    recorded) or when the master was infeasible (solve and infeasible
    handler, no callback); it is false when the second termination check
    stopped the pass: the master was solved, handled and the master callback
    called, a stop condition is recorded, and the NLP subproblem was not
    solved. *)
Theorem break_exit_last_iter_cuts
    (E : Collaborators) (fuel : nat) (m m' : Machine) (l : option bool) :
  main_loop E fuel m = Some (Ok (BreakExit, l) m') ->
  exists n m0,
    run_passes E n None m = Some (None, m0) /\
    ((l = Some true /\ trace m' = trace m0 /\ stop_recorded (world m')) \/
     (l = Some true /\
      trace m' = trace m0 ++ [ev_solve_OA_master;
                              ev_handle_master_mip_infeasible]) \/
     (l = Some false /\ stop_recorded (world m') /\
      exists h, is_continuing_master_handler h = true /\
                trace m' = trace m0 ++ [ev_solve_OA_master; h;
                                        ev_call_after_master_solve])).
Proof.
  unfold main_loop. intros H. apply while_loop_break_inv in H.
  destruct H as (n & m0 & _ & Hp & _ & Hi).
  exists n, m0. split; [exact Hp|].
  apply iteration_break_shape in Hi. exact Hi.
Qed.

Lemma break_exit_last_iter_cuts_witness :
  stop_recorded (world Scenario.nogood_loop_end).
Proof.
  destruct (@break_exit_last_iter_cuts Scenario.env_optimal 5
              (Scenario.start Scenario.world_nogood) Scenario.nogood_loop_end
              (Some false) eq_refl)
    as (n & m0 & _ & [(H & _)|[(H & _)|(_ & Hrec & _)]]).
  - discriminate H.
  - discriminate H.
  - exact Hrec.
Defined.

(** X5: a pass that runs to its end has made exactly these calls, in this
    order: the master solve, the optimal or the other-conditions handler, the
    master callback and then, unless [single_tree] is set, the NLP subproblem
    solve, one of its three handlers and the subproblem callback.  It leaves
    [last_iter_cuts] as it was. *)
Theorem completed_pass_calls
    (E : Collaborators) (l l' : option bool) (m m' : Machine) :
  iteration E l m = Ok (Continue, l') m' ->
  l' = l /\
  exists h, is_continuing_master_handler h = true /\
    ((single_tree (config (world m')) = true /\
      trace m' = trace m ++ [ev_solve_OA_master; h;
                             ev_call_after_master_solve]) \/
     (exists hn, is_NLP_handler hn = true /\
        trace m' = trace m ++ [ev_solve_OA_master; h;
                               ev_call_after_master_solve;
                               ev_solve_NLP_subproblem; hn;
                               ev_call_after_subproblem_solve])).
Proof.
  intros H. split.
  - eapply iteration_continue; eassumption.
  - eapply iteration_continue_shape; eassumption.
Qed.

Lemma completed_pass_calls_witness :
  exists h hn,
    trace Scenario.after_first_pass =
    [] ++ [ev_solve_OA_master; h; ev_call_after_master_solve;
           ev_solve_NLP_subproblem; hn; ev_call_after_subproblem_solve].
Proof.
  destruct (@completed_pass_calls Scenario.env_optimal None None
              (Scenario.start Scenario.world0) Scenario.after_first_pass
              eq_refl)
    as (_ & h & _ & [[Hs _]|(hn & _ & Ht)]).
  - simpl in Hs. discriminate Hs.
  - exists h, hn. exact Ht.
Defined.

(** X6: after [n] complete passes the master has been solved exactly [n]
    more times and the master callback called exactly [n] more times; the
    NLP subproblem has been solved as many times as the subproblem callback
    has been called, at most [n]; and no integer cut has been deactivated. *)
Theorem calls_after_complete_passes
    (E : Collaborators) (n : nat) (l l' : option bool) (m m' : Machine) :
  run_passes E n l m = Some (l', m') ->
  calls_of ev_solve_OA_master (trace m')
    = (calls_of ev_solve_OA_master (trace m) + n)%nat /\
  calls_of ev_call_after_master_solve (trace m')
    = (calls_of ev_call_after_master_solve (trace m) + n)%nat /\
  (exists k, (k <= n)%nat /\
     calls_of ev_solve_NLP_subproblem (trace m')
       = (calls_of ev_solve_NLP_subproblem (trace m) + k)%nat /\
     calls_of ev_call_after_subproblem_solve (trace m')
       = (calls_of ev_call_after_subproblem_solve (trace m) + k)%nat) /\
  count_events is_deactivate_integer_cut (trace m')
    = count_events is_deactivate_integer_cut (trace m).
Proof.
  revert l m. induction n as [|n IH]; intros l m; simpl.
  - intros H; inversion H; subst.
    rewrite !Nat.add_0_r. repeat split.
    exists 0%nat. rewrite !Nat.add_0_r. repeat split. lia.
  - destruct (loop_guard (world m)); [|discriminate].
    destruct (iteration E l m) as [[[|] l1] m1|] eqn:It; try discriminate.
    intros H. apply IH in H. destruct H as (H1 & H2 & (k & Hk & H3 & H4) & H5).
    apply iteration_continue_shape in It.
    destruct It as (h & Hh & [[_ Ht]|(hn & Hhn & Ht)]);
      rewrite Ht in *; unfold calls_of in *;
      rewrite count_events_app in *.
    + destruct h; try discriminate; cbn in *;
        (split; [lia|]); (split; [lia|]); (split; [|lia]);
        exists k; (split; [lia|]); split; lia.
    + destruct h; try discriminate; destruct hn; try discriminate; cbn in *;
        (split; [lia|]); (split; [lia|]); (split; [|lia]);
        exists (S k); (split; [lia|]); split; lia.
Qed.

Lemma calls_after_complete_passes_witness :
  calls_of ev_solve_OA_master (trace Scenario.after_first_pass) = 1%nat /\
  calls_of ev_call_after_master_solve (trace Scenario.after_first_pass)
    = 1%nat.
Proof.
  destruct (@calls_after_complete_passes Scenario.env_optimal 1 None None
              (Scenario.start Scenario.world0) Scenario.after_first_pass
              eq_refl) as (H1 & H2 & _).
  split; [exact H1 | exact H2].
Defined.

(** X9: with a strategy other than OA and GOA, a pass whose first
    termination check is positive still leaves the loop normally, with
    [last_iter_cuts] true; only when that check is negative is
    [NotImplementedError] raised, after [mip_subiter] has been reset and
    before any collaborator is called. *)
Theorem unsupported_strategy
    (E : Collaborators) (fuel : nat) (m : Machine) :
  strategy_implemented (strategy (config (world m))) = false ->
  loop_guard (world m) = true ->
  first_active (working_model (solve_data (world m))) <> None ->
  let b := fst (algorithm_should_terminate_pure E false (world m)) in
  let w1 := snd (algorithm_should_terminate_pure E false (world m)) in
  (b = true ->
   main_loop E (S fuel) m =
   Some (Ok (BreakExit, Some true) (mkMachine w1 (trace m)))) /\
  (b = false ->
   MindtPy_iteration_loop E (S fuel) m =
   Some (Raise NotImplementedError
           (mkMachine (on_data (set_mip_subiter 0%Z) w1) (trace m)))).
Proof.
  intros Hs Hg Ho. cbv zeta.
  pose proof (iteration_cases E None m) as Hcases.
  pose proof (check_same_for_loop E false (world m)) as Hsame.
  destruct (algorithm_should_terminate_pure E false (world m)) as [b w1].
  cbn [fst snd] in *. destruct Hsame as (Hcfg & _).
  rewrite Hcfg, Hs in Hcases. split; intros ->.
  - unfold main_loop. simpl. rewrite Hg, Hcases. reflexivity.
  - apply MindtPy_iteration_loop_raise; [exact Ho|].
    unfold main_loop. simpl. rewrite Hg, Hcases. reflexivity.
Qed.

Lemma unsupported_strategy_witness :
  MindtPy_iteration_loop Scenario.env_optimal 1
    (Scenario.start Cases.world_ECP) =
  Some (Raise NotImplementedError (Scenario.start Cases.world_ECP)).
Proof.
  assert (Ho : first_active
                 (working_model
                    (solve_data (world (Scenario.start Cases.world_ECP))))
               <> None) by (simpl; discriminate).
  destruct (@unsupported_strategy Scenario.env_optimal 0
              (Scenario.start Cases.world_ECP) eq_refl eq_refl Ho)
    as [_ Hraise].
  exact (Hraise eq_refl).
Defined.

(** * The guard of the loop *)

Section GuardFacts.

Variable E : Collaborators.
Hypothesis Hside : kept_by_NLP_side E (fun w => loop_guard w = true).

Lemma NLP_handler_call_kept y res w :
  loop_guard w = true ->
  loop_guard (result_world (snd (NLP_handler_call E y res) w)) = true.
Proof.
  unfold NLP_handler_call.
  destruct (solver_termination_condition res); cbn [snd]; apply Hside.
Qed.

Lemma after_master_callback_continue_guard l m l' m' :
  after_master_callback E l m = Ok (Continue, l') m' ->
  loop_guard (world m') = true.
Proof.
  unfold after_master_callback. unfold_monad.
  rewrite algorithm_should_terminate_run.
  pose proof (check_same_for_loop E true (world m)) as Hsame.
  destruct (algorithm_should_terminate_pure E true (world m)) as [b w1]
    eqn:Hc.
  cbn [fst snd world trace] in *. destruct b; [discriminate|].
  cbn [fst snd world trace].
  assert (Hg : loop_guard w1 = true).
  { destruct (check_negative E _ _ Hc) as (_ & Hi & _).
    destruct Hsame as (Hcfg & _ & Hmi & _).
    rewrite loop_guard_limit. unfold iteration_limit_reached in *.
    rewrite Hcfg, Hmi, Hi. reflexivity. }
  destruct (single_tree (config w1)); cbn [negb fst snd world trace].
  - intros H; inversion H; subst. exact Hg.
  - pose proof (side_solve_NLP_subproblem Hside w1 Hg) as H1.
    destruct (solve_NLP_subproblem E w1) as [[y res] w2|]; [|discriminate].
    cbn [result_world fst snd world trace] in *.
    rewrite handle_NLP_result_call. unfold call. cbn [world trace].
    pose proof (NLP_handler_call_kept y res w2 H1) as H2.
    destruct (snd (NLP_handler_call E y res) w2); [|discriminate].
    cbn [result_world world trace] in *.
    pose proof (side_call_after_subproblem_solve Hside y w H2) as H3.
    destruct (call_after_subproblem_solve E y w); [|discriminate].
    intros H; inversion H; subst. exact H3.
Qed.

Lemma iteration_continue_guard l m l' m' :
  iteration E l m = Ok (Continue, l') m' -> loop_guard (world m') = true.
Proof.
  intros H. pose proof (iteration_cases E l m) as Hcases.
  destruct (algorithm_should_terminate_pure E false (world m)) as [[|] w1];
    [congruence|].
  destruct (strategy_implemented (strategy (config w1))); [|congruence].
  destruct (solve_OA_master E (on_data (set_mip_subiter 0%Z) w1))
    as [[x res] w2|e w2]; [|congruence].
  rewrite Hcases in H. clear Hcases.
  assert (Hdec : solver_termination_condition res = tc.infeasible \/
                solver_termination_condition res <> tc.infeasible)
    by (destruct (solver_termination_condition res);
        (left; reflexivity) || (right; discriminate)).
  destruct Hdec as [Hi|Hn].
  - unfold master_branch in H. rewrite Hi in H. unfold_monad.
    break_match; discriminate.
  - rewrite (@master_branch_continuing E x res l Hn) in H.
    unfold bind at 1 in H. unfold call in H.
    destruct (snd (master_handler_call E x res) _); [|discriminate].
    unfold after_master_handler in H. unfold bind at 1 in H.
    unfold call in H.
    destruct (call_after_master_solve E x _); [|discriminate].
    eapply after_master_callback_continue_guard; eassumption.
Qed.

Lemma while_loop_guard_exit_at_entry fuel l m l' m' :
  while_loop E fuel l m = Some (Ok (GuardExit, l') m') -> m' = m.
Proof.
  revert l m. induction fuel as [|fuel IH]; intros l m; simpl.
  - discriminate.
  - destruct (loop_guard (world m)) eqn:G.
    + destruct (iteration E l m) as [[[|] l1] m1|] eqn:It; try discriminate.
      intros H. pose proof (iteration_continue_guard _ _ It) as G1.
      pose proof (while_loop_guard_exit E _ _ _ H) as [_ G'].
      apply IH in H. subst m'. congruence.
    + intros H; inversion H; reflexivity.
Qed.

End GuardFacts.

(** X7: when the collaborators called after the second termination check
    (the NLP subproblem solve, its handlers and the subproblem callback)
    leave [mip_iter] below [iteration_limit], the loop can be left through
    its guard only on entry: nothing has been called, nothing has been
    written, and [mip_iter >= iteration_limit] held from the start.  Every
    loop that made a pass ends by [break] or by an exception. *)
Theorem guard_exit_only_on_entry
    (E : Collaborators) (fuel : nat) (m m' : Machine) (l : option bool) :
  kept_by_NLP_side E (fun w => loop_guard w = true) ->
  main_loop E fuel m = Some (Ok (GuardExit, l) m') ->
  m' = m /\ l = None /\
  (iteration_limit (config (world m)) <= mip_iter (solve_data (world m)))%Z.
Proof.
  intros Hside H. unfold main_loop in H.
  pose proof (while_loop_guard_exit E _ _ _ H) as [Hl G].
  apply (while_loop_guard_exit_at_entry Hside) in H. subst m'.
  split; [reflexivity|]. split; [exact Hl|].
  unfold loop_guard in G. apply Z.ltb_ge in G. exact G.
Qed.

Lemma env_optimal_NLP_side_keeps_guard :
  kept_by_NLP_side Scenario.env_optimal (fun w => loop_guard w = true).
Proof. constructor; simpl; intros; assumption. Qed.

Lemma guard_exit_only_on_entry_witness :
  let m := Scenario.start
             (on_config (Scenario.set_iteration_limit 0) Scenario.world0) in
  (iteration_limit (config (world m)) <= mip_iter (solve_data (world m)))%Z.
Proof.
  cbv zeta.
  destruct (@guard_exit_only_on_entry Scenario.env_optimal 3
              (Scenario.start
                 (on_config (Scenario.set_iteration_limit 0) Scenario.world0))
              _ None env_optimal_NLP_side_keeps_guard eq_refl)
    as (_ & _ & H).
  exact H.
Defined.

(** * Termination of the loop *)

Section KeepsLoop.

Variable E : Collaborators.
Variable P : World -> Prop.
Hypothesis P_insensitive : loop_insensitive P.
Hypothesis P_kept : kept_by_collaborators E P.

Lemma keeps_check cc : keeps P (algorithm_should_terminate E cc).
Proof.
  intros m H. rewrite algorithm_should_terminate_run. simpl.
  apply P_insensitive with (w := world m); [|exact H].
  apply check_same_for_loop.
Qed.

Lemma keeps_NLP_result y res : keeps P (handle_NLP_result E y res).
Proof.
  unfold handle_NLP_result.
  destruct (solver_termination_condition res); apply keeps_call;
    intros w; apply P_kept.
Qed.

Lemma keeps_second_half l : keeps P (after_master_callback E l).
Proof.
  unfold after_master_callback.
  apply keeps_bind; [apply keeps_check|].
  intros [|]; [apply keeps_ret|].
  apply keeps_bind; [apply keeps_gets|]. intros single.
  apply keeps_bind; [|intros; apply keeps_ret].
  destruct single; cbn [negb]; [apply keeps_ret|].
  apply keeps_bind; [apply keeps_call; intros w; apply P_kept|].
  intros r. apply keeps_bind; [apply keeps_NLP_result|].
  intros _. apply keeps_call; intros w; apply P_kept.
Qed.

Lemma keeps_master_branch x res l : keeps P (master_branch E x res l).
Proof.
  unfold master_branch, after_master_handler.
  destruct (solver_termination_condition res);
    (apply keeps_bind; [apply keeps_call; intros w; apply P_kept|]);
    intros _; try apply keeps_ret;
    (apply keeps_bind; [apply keeps_call; intros w; apply P_kept|]);
    intros _; apply keeps_second_half.
Qed.

End KeepsLoop.

Section Termination.

Variable E : Collaborators.
Hypothesis Hcounts : counts_master_iterations E.

Lemma iterations_left_insensitive c :
  loop_insensitive (fun w => (iterations_left w <= c)%Z).
Proof.
  intros w w' (Hcfg & _ & Hmi & _). unfold iterations_left.
  rewrite Hcfg, Hmi. intros H; exact H.
Qed.

(** A complete pass uses up at least one of the iterations left. *)
Lemma pass_uses_iteration l m l' m' :
  iteration E l m = Ok (Continue, l') m' ->
  (iterations_left (world m') <= iterations_left (world m) - 1)%Z.
Proof.
  intros H. pose proof (iteration_cases E l m) as Hcases.
  pose proof (check_same_for_loop E false (world m)) as Hsame.
  destruct (algorithm_should_terminate_pure E false (world m)) as [[|] w1];
    [congruence|].
  destruct (strategy_implemented (strategy (config w1))); [|congruence].
  destruct (solve_OA_master E (on_data (set_mip_subiter 0%Z) w1))
    as [[x res] w2|e w2] eqn:Hm; [|congruence].
  rewrite Hcases in H.
  pose proof (master_advances Hcounts _ Hm) as Hadv.
  assert (Hleft : iterations_left (on_data (set_mip_subiter 0%Z) w1)
                  = iterations_left (world m)).
  { cbn [snd] in Hsame. destruct Hsame as (Hcfg & _ & Hmi & _).
    unfold iterations_left. cbn. rewrite Hcfg, Hmi. reflexivity. }
  rewrite Hleft in Hadv.
  pose proof (@keeps_master_branch E
                (fun w => (iterations_left w <= iterations_left w2)%Z)
                (@iterations_left_insensitive (iterations_left w2))
                (@none_gives_back E Hcounts (iterations_left w2))
                x res l
                (mkMachine w2 (trace m ++ [ev_solve_OA_master]))) as Hk.
  cbn [world] in Hk. specialize (Hk (Z.le_refl _)).
  rewrite H in Hk. cbn [outcome_machine] in Hk. lia.
Qed.

Lemma while_loop_returns fuel l m :
  (Z.to_nat (iterations_left (world m)) < fuel)%nat ->
  exists r, while_loop E fuel l m = Some r.
Proof.
  revert l m. induction fuel as [|fuel IH]; intros l m Hf; simpl.
  - lia.
  - destruct (loop_guard (world m)) eqn:G; [|eexists; reflexivity].
    destruct (iteration E l m) as [[[|] l1] m1|] eqn:It;
      try (eexists; reflexivity).
    apply IH. pose proof (pass_uses_iteration _ _ It) as Hd.
    unfold loop_guard in G. apply Z.ltb_lt in G.
    unfold iterations_left in *. lia.
Qed.

End Termination.

(** X8: when [mip_iter] counts the master solves (a master solve that returns
    brings it at least one closer to [iteration_limit], and no collaborator
    moves it back or raises the limit), the loop ends: it needs at most
    [iteration_limit - mip_iter] complete passes, whatever the solves
    return. *)
Theorem loop_ends_within_iteration_limit
    (E : Collaborators) (fuel : nat) (m : Machine) :
  counts_master_iterations E ->
  (Z.to_nat (iterations_left (world m)) < fuel)%nat ->
  (exists r, main_loop E fuel m = Some r) /\
  (forall n l' m', run_passes E n None m = Some (l', m') ->
     (Z.of_nat n <= Z.max 0 (iterations_left (world m)))%Z).
Proof.
  intros Hcounts Hf. split.
  - apply (while_loop_returns Hcounts). exact Hf.
  - intros n. generalize (@None bool) as l. revert m Hf.
    induction n as [|n IH]; intros m Hf l l' m'; simpl.
    + intros _. lia.
    + destruct (loop_guard (world m)) eqn:G; [|discriminate].
      destruct (iteration E l m) as [[[|] l1] m1|] eqn:It; try discriminate.
      intros H. pose proof (pass_uses_iteration Hcounts _ _ It) as Hd.
      unfold loop_guard in G. apply Z.ltb_lt in G.
      assert (Hf1 : (Z.to_nat (iterations_left (world m1)) < fuel)%nat)
        by (unfold iterations_left in *; lia).
      specialize (IH m1 Hf1 l1 l' m' H).
      unfold iterations_left in *. lia.
Qed.

Lemma env_optimal_counts_master_iterations :
  counts_master_iterations Scenario.env_optimal.
Proof.
  constructor.
  - intros w a w' H. simpl in H. unfold Scenario.master in H.
    inversion H; subst. unfold iterations_left. simpl. lia.
  - intros c. constructor; unfold iterations_left; simpl; intros;
      try assumption; lia.
Qed.

Lemma loop_ends_within_iteration_limit_witness :
  (exists r, main_loop Scenario.env_optimal 4
               (Scenario.start Scenario.world0) = Some r) /\
  (forall n l' m',
      run_passes Scenario.env_optimal n None
        (Scenario.start Scenario.world0) = Some (l', m') ->
      (Z.of_nat n <= 3)%Z).
Proof.
  assert (Hf : (Z.to_nat
                  (iterations_left (world (Scenario.start Scenario.world0)))
                < 4)%nat) by (simpl; lia).
  exact (@loop_ends_within_iteration_limit Scenario.env_optimal 4
           (Scenario.start Scenario.world0)
           env_optimal_counts_master_iterations Hf).
Defined.

(** * The calls a computation makes *)

Section Emits.

Variable allowed : event -> bool.

Lemma emits_ret A (a : A) : emits_only allowed (ret a).
Proof. intros m. exists []. rewrite app_nil_r. split; reflexivity. Qed.

Lemma emits_raise A (e : exn) : emits_only allowed (@raise A e).
Proof. intros m. exists []. rewrite app_nil_r. split; reflexivity. Qed.

Lemma emits_gets A (f : World -> A) : emits_only allowed (gets f).
Proof. intros m. exists []. rewrite app_nil_r. split; reflexivity. Qed.

Lemma emits_modify (f : World -> World) : emits_only allowed (modify f).
Proof. intros m. exists []. simpl. rewrite app_nil_r. split; reflexivity. Qed.

Lemma emits_call A (ev : event) (f : World -> result A) :
  allowed ev = true -> emits_only allowed (call ev f).
Proof.
  intros Hev m. exists [ev]. unfold call.
  destruct (f (world m)); simpl; rewrite Hev; split; reflexivity.
Qed.

Lemma emits_bind A B (c : M A) (k : A -> M B) :
  emits_only allowed c -> (forall a, emits_only allowed (k a)) ->
  emits_only allowed (bind c k).
Proof.
  intros Hc Hk m. unfold bind. destruct (Hc m) as (p1 & Ht1 & Ha1).
  destruct (c m) as [a m1|e m1]; simpl in Ht1.
  - destruct (Hk a m1) as (p2 & Ht2 & Ha2).
    exists (p1 ++ p2). rewrite Ht2, Ht1, app_assoc, forallb_app, Ha1, Ha2.
    split; reflexivity.
  - exists p1. split; assumption.
Qed.

Lemma emits_check E cc : emits_only allowed (algorithm_should_terminate E cc).
Proof.
  intros m. exists []. rewrite algorithm_should_terminate_run. simpl.
  rewrite app_nil_r. split; reflexivity.
Qed.

Lemma emits_make_mip_args : emits_only allowed make_mip_args.
Proof.
  intros m. exists []. unfold make_mip_args.
  repeat break_match; simpl; rewrite app_nil_r; split; reflexivity.
Qed.

End Emits.

Section EmitsProgram.

Variable E : Collaborators.

Lemma emits_handle_NLP_result allowed y res :
  (forall e, is_NLP_handler e = true -> allowed e = true) ->
  emits_only allowed (handle_NLP_result E y res).
Proof.
  intros Hall. unfold handle_NLP_result.
  destruct (solver_termination_condition res); apply emits_call;
    apply Hall; reflexivity.
Qed.

Lemma emits_iteration l : emits_only is_loop_event (iteration E l).
Proof.
  unfold iteration, after_master_handler, after_master_callback.
  apply emits_bind; [apply emits_check|].
  intros [|]; [apply emits_ret|].
  apply emits_bind; [apply emits_modify|]. intros _.
  apply emits_bind; [apply emits_gets|]. intros strat.
  destruct (strategy_implemented strat); [|apply emits_raise].
  apply emits_bind; [apply emits_call; reflexivity|]. intros r.
  assert (Hrest : emits_only is_loop_event
            (call ev_call_after_master_solve
                  (call_after_master_solve E (fst r)) ;;
             stop <- algorithm_should_terminate E true ;;
             (if stop then ret (Break, Some false)
              else
                single <- gets (fun w => single_tree (config w)) ;;
                (if negb single then
                   r0 <- call ev_solve_NLP_subproblem
                              (solve_NLP_subproblem E) ;;
                   handle_NLP_result E (fst r0) (snd r0) ;;
                   call ev_call_after_subproblem_solve
                        (call_after_subproblem_solve E (fst r0))
                 else ret tt) ;;
                ret (Continue, l)))).
  { apply emits_bind; [apply emits_call; reflexivity|]. intros _.
    apply emits_bind; [apply emits_check|].
    intros [|]; [apply emits_ret|].
    apply emits_bind; [apply emits_gets|]. intros single.
    apply emits_bind; [|intros; apply emits_ret].
    destruct (negb single); [|apply emits_ret].
    apply emits_bind; [apply emits_call; reflexivity|]. intros r0.
    apply emits_bind.
    - apply emits_handle_NLP_result. intros e He.
      destruct e; try discriminate; reflexivity.
    - intros _. apply emits_call; reflexivity. }
  destruct (solver_termination_condition (snd r));
    (apply emits_bind; [apply emits_call; reflexivity|]); intros _;
    try exact Hrest; apply emits_ret.
Qed.

Lemma emits_while_loop fuel l m r :
  while_loop E fuel l m = Some r ->
  exists post,
    trace (outcome_machine r) = trace m ++ post /\
    forallb is_loop_event post = true.
Proof.
  revert l m. induction fuel as [|fuel IH]; intros l m; simpl.
  - discriminate.
  - destruct (loop_guard (world m)).
    + destruct (emits_iteration l m) as (p1 & Ht1 & Ha1).
      destruct (iteration E l m) as [[[|] l1] m1|e m1]; simpl in Ht1.
      * intros H. apply IH in H. destruct H as (p2 & Ht2 & Ha2).
        exists (p1 ++ p2).
        rewrite Ht2, Ht1, app_assoc, forallb_app, Ha1, Ha2.
        split; reflexivity.
      * intros H; inversion H; subst. exists p1. split; assumption.
      * intros H; inversion H; subst. exists p1. split; assumption.
    + intros H; inversion H; subst. exists [].
      rewrite app_nil_r. split; reflexivity.
Qed.

Lemma emits_deactivate :
  emits_only is_bound_fix_event deactivate_last_integer_cut.
Proof.
  intros m. unfold deactivate_last_integer_cut.
  destruct (integer_cuts (solve_data (world m))).
  - exists []. simpl. rewrite app_nil_r. split; reflexivity.
  - eexists. split; reflexivity.
Qed.

Lemma emits_bound_fix b : emits_only is_bound_fix_event (bound_fix E b).
Proof.
  unfold bound_fix, resolve_master.
  apply emits_bind; [apply emits_modify|]. intros _.
  apply emits_bind.
  - destruct (negb b); [|apply emits_ret].
    apply emits_bind; [apply emits_call; reflexivity|]. intros r.
    apply emits_handle_NLP_result. intros e He.
    destruct e; try discriminate; reflexivity.
  - intros _. apply emits_bind; [apply emits_deactivate|]. intros _.
    apply emits_bind; [apply emits_gets|]. intros solver.
    apply emits_bind.
    + destruct (is_persistent E solver);
        [apply emits_call; reflexivity | apply emits_ret].
    + intros _. apply emits_bind; [apply emits_make_mip_args|].
      intros args. apply emits_bind; [apply emits_call; reflexivity|].
      intros res. apply emits_bind; [apply emits_gets|]. intros objs.
      destruct (first_active objs); [|apply emits_raise].
      apply emits_bind; [apply emits_modify|]. intros _.
      apply emits_modify.
Qed.

End EmitsProgram.

(** X10: however the loop ends (normally, by an exception, after any number
    of passes), it has called nothing but the master solve, the master
    handlers, the NLP subproblem solve, its handlers and the two callbacks:
    inside the loop no integer cut is deactivated and the solver of
    [bound_fix] is never run. *)
Theorem loop_makes_only_loop_calls
    (E : Collaborators) (fuel : nat) (m : Machine)
    (r : outcome (loop_exit * option bool)) :
  main_loop E fuel m = Some r ->
  exists post,
    trace (outcome_machine r) = trace m ++ post /\
    forallb is_loop_event post = true /\
    count_events is_deactivate_integer_cut post = 0%nat /\
    count_events is_masteropt_solve post = 0%nat /\
    ~ In ev_set_instance post.
Proof.
  unfold main_loop. intros H. apply emits_while_loop in H.
  destruct H as (post & Ht & Ha). exists post.
  split; [exact Ht|]. split; [exact Ha|].
  rewrite forallb_forall in Ha.
  assert (Hnone : forall p : event -> bool,
             (forall e, p e = true -> is_loop_event e = false) ->
             count_events p post = 0%nat).
  { intros p Hp. unfold count_events.
    assert (Hfil : forall l : list event,
               (forall e, In e l -> is_loop_event e = true) ->
               filter p l = []).
    { induction l as [|e l IHl]; [reflexivity|]. intros Hl. simpl.
      destruct (p e) eqn:Hpe.
      - apply Hp in Hpe. rewrite (Hl e (or_introl eq_refl)) in Hpe.
        discriminate.
      - apply IHl. intros e' He'. apply Hl. right. exact He'. }
    rewrite (Hfil post Ha). reflexivity. }
  split; [|split].
  - apply Hnone. intros e He. destruct e; try discriminate; reflexivity.
  - apply Hnone. intros e He. destruct e; try discriminate; reflexivity.
  - intros Hin. apply Ha in Hin. discriminate.
Qed.

Lemma loop_makes_only_loop_calls_witness :
  exists post,
    trace Scenario.nogood_loop_end = [] ++ post /\
    forallb is_loop_event post = true.
Proof.
  destruct (@loop_makes_only_loop_calls Scenario.env_optimal 5
              (Scenario.start Scenario.world_nogood)
              (Ok (BreakExit, Some false) Scenario.nogood_loop_end) eq_refl)
    as (post & Ht & Ha & _).
  exists post. split; [exact Ht | exact Ha].
Defined.

(** X11: however [bound_fix] ends, it has called nothing but the NLP
    subproblem solve and its handlers, the deactivation of the cut,
    [set_instance] and the solver: neither user callback is called (not even
    after the NLP subproblem it solves itself), and neither is
    [solve_OA_master] nor a master handler. *)
Theorem bound_fix_calls_no_callback
    (E : Collaborators) (last_iter_cuts : bool) (m : Machine) :
  exists post,
    trace (outcome_machine (bound_fix E last_iter_cuts m)) = trace m ++ post /\
    forallb is_bound_fix_event post = true /\
    ~ In ev_call_after_subproblem_solve post /\
    ~ In ev_call_after_master_solve post /\
    ~ In ev_solve_OA_master post.
Proof.
  destruct (emits_bound_fix E last_iter_cuts m) as (post & Ht & Ha).
  exists post. split; [exact Ht|]. split; [exact Ha|].
  rewrite forallb_forall in Ha.
  repeat split; intros Hin; apply Ha in Hin; discriminate.
Qed.

(** * Further properties of the bound correction *)

(** X12: when the loop is left with [last_iter_cuts] true and
    [add_nogood_cuts] is set while the master problem has no integer cut at
    all, [MindtPy_iteration_loop] raises [KeyError]: [zero_tolerance] has been
    set, but nothing is called, the master is not solved again and no bound
    is touched. *)
Theorem bound_fix_without_integer_cuts
    (E : Collaborators) (fuel : nat) (m m1 : Machine) (ex : loop_exit) :
  first_active (working_model (solve_data (world m))) <> None ->
  main_loop E fuel m = Some (Ok (ex, Some true) m1) ->
  add_nogood_cuts (config (world m1)) = true ->
  integer_cuts (solve_data (world m1)) = [] ->
  MindtPy_iteration_loop E fuel m =
  Some (Raise KeyError
          (mkMachine (on_config (set_zero_tolerance (1 # 10000)) (world m1))
                     (trace m1))).
Proof.
  intros Ho Hloop Hcuts Hnil. unfold MindtPy_iteration_loop.
  destruct (first_active (working_model (solve_data (world m))));
    [|congruence].
  rewrite Hloop. unfold after_loop. unfold_monad. rewrite Hcuts.
  unfold bound_fix, resolve_master, deactivate_last_integer_cut.
  unfold_monad. cbn [negb world trace on_config solve_data].
  rewrite Hnil. reflexivity.
Qed.

Lemma bound_fix_without_integer_cuts_witness :
  MindtPy_iteration_loop Scenario.env_optimal 2
    (Scenario.start Cases.world_converged_no_cuts) =
  Some (Raise KeyError
          (mkMachine
             (on_config (set_zero_tolerance (1 # 10000))
                (on_data (set_termination_condition tc.optimal)
                   Cases.world_converged_no_cuts))
             [])).
Proof.
  assert (Ho : first_active
                 (working_model
                    (solve_data
                       (world (Scenario.start Cases.world_converged_no_cuts))))
               <> None) by (simpl; discriminate).
  exact (@bound_fix_without_integer_cuts Scenario.env_optimal 2
           (Scenario.start Cases.world_converged_no_cuts)
           (mkMachine (on_data (set_termination_condition tc.optimal)
                         Cases.world_converged_no_cuts) [])
           BreakExit Ho eq_refl eq_refl eq_refl).
Defined.

(** X13: the deactivation touches the last integer cut only: the list keeps
    its length, its last entry is inactive afterwards, every other entry
    keeps its flag, and the index used is the length of the list (the last
    index of the 1-indexed constraint list).  Nothing else of the state
    changes: [config] and every other field of [solve_data] are as before. *)
Theorem only_last_integer_cut_deactivated (m : Machine) :
  integer_cuts (solve_data (world m)) <> [] ->
  exists m',
    deactivate_last_integer_cut m = Ok tt m' /\
    let cuts := integer_cuts (solve_data (world m)) in
    let cuts' := integer_cuts (solve_data (world m')) in
    List.length cuts' = List.length cuts /\
    last cuts' true = false /\
    (forall i, (S i < List.length cuts)%nat ->
               nth i cuts' true = nth i cuts true) /\
    trace m' = trace m ++ [ev_deactivate_integer_cut (List.length cuts)] /\
    config (world m') = config (world m) /\
    working_model (solve_data (world m'))
      = working_model (solve_data (world m)) /\
    mip_iter (solve_data (world m')) = mip_iter (solve_data (world m)) /\
    LB (solve_data (world m')) = LB (solve_data (world m)) /\
    UB (solve_data (world m')) = UB (solve_data (world m)) /\
    LB_progress (solve_data (world m')) = LB_progress (solve_data (world m)) /\
    UB_progress (solve_data (world m')) = UB_progress (solve_data (world m)) /\
    mip_vars (solve_data (world m')) = mip_vars (solve_data (world m)) /\
    mip_subiter (solve_data (world m')) = mip_subiter (solve_data (world m)) /\
    termination_condition (solve_data (world m'))
      = termination_condition (solve_data (world m)) /\
    curr_int_sol (solve_data (world m')) = curr_int_sol (solve_data (world m))
    /\
    prev_int_sol (solve_data (world m')) = prev_int_sol (solve_data (world m)).
Proof.
  intros Hne. unfold deactivate_last_integer_cut.
  destruct (integer_cuts (solve_data (world m))) as [|c cs] eqn:Hc;
    [congruence|].
  eexists. split; [reflexivity|]. cbv zeta.
  cbn [world trace on_data solve_data set_integer_cuts integer_cuts].
  pose proof (app_removelast_last true Hne) as Hdec.
  split; [|split; [|split; [|split]]].
  - remember (removelast (c :: cs)) as r. rewrite Hdec.
    rewrite !length_app. reflexivity.
  - apply last_last.
  - intros i Hi. remember (removelast (c :: cs)) as r.
    rewrite Hdec in Hi |- *. rewrite length_app in Hi. simpl in Hi.
    rewrite !app_nth1 by lia. reflexivity.
  - reflexivity.
  - repeat split.
Qed.

Lemma only_last_integer_cut_deactivated_witness :
  exists m',
    deactivate_last_integer_cut
      (Scenario.start
         (on_data (set_integer_cuts [true; false; true]) Scenario.world0))
    = Ok tt m' /\
    integer_cuts (solve_data (world m')) = [true; false; false].
Proof.
  assert (Hne : integer_cuts
                  (solve_data
                     (world
                        (Scenario.start
                           (on_data (set_integer_cuts [true; false; true])
                              Scenario.world0)))) <> [])
    by (simpl; discriminate).
  destruct (@only_last_integer_cut_deactivated
              (Scenario.start
                 (on_data (set_integer_cuts [true; false; true])
                    Scenario.world0)) Hne) as (m' & Hrun & _).
  exists m'. split; [exact Hrun|].
  simpl in Hrun. inversion Hrun. reflexivity.
Defined.

Lemma fold_pick_in (step : Q -> Q -> Q) :
  (forall m y, step m y = m \/ step m y = y) ->
  forall xs m, In (fold_left step xs m) (m :: xs).
Proof.
  intros Hstep. induction xs as [|x xs IH]; intros m; simpl.
  - left; reflexivity.
  - destruct (IH (step m x)) as [H|H].
    + destruct (Hstep m x) as [Hs|Hs]; rewrite Hs in *; auto.
    + right; right; exact H.
Qed.

Lemma py_max_in (x : Q) (xs : list Q) : In (py_max x xs) (x :: xs).
Proof.
  unfold py_max. apply fold_pick_in.
  intros m y. destruct (Qgt_bool y m); auto.
Qed.

Lemma py_min_in (x : Q) (xs : list Q) : In (py_min x xs) (x :: xs).
Proof.
  unfold py_min. apply fold_pick_in.
  intros m y. destruct (Qgt_bool m y); auto.
Qed.

(** X14: the bound [bound_fix] records is one that was really obtained: for
    a minimisation the corrected [LB] is the re-solved master's lower bound
    or one of the entries of [LB_progress] other than the last, and it is
    never below the re-solved master's lower bound; for a maximisation the
    same holds of [UB], the upper bound and [UB_progress], with never
    above. *)
Theorem corrected_bound_is_attained
    (E : Collaborators) (b : bool) (m m' : Machine) :
  bound_fix E b m = Ok tt m' ->
  exists args w_pre res w_post o,
    masteropt_solve E args w_pre = Returns res w_post /\
    first_active (working_model (solve_data w_post)) = Some o /\
    working_model (solve_data (world m'))
      = working_model (solve_data w_post) /\
    let before := solve_data w_post in
    let after := solve_data (world m') in
    match sense o with
    | minimize =>
        In (LB after)
           (problem_lower_bound res :: removelast (LB_progress before)) /\
        problem_lower_bound res <= LB after
    | maximize =>
        In (UB after)
           (problem_upper_bound res :: removelast (UB_progress before)) /\
        UB after <= problem_upper_bound res
    end.
Proof.
  intros Hfix. apply bound_fix_returns in Hfix.
  destruct Hfix as (args & w_pre & res & w_post & o & post
                    & Hs & Ho & Hw & _).
  exists args, w_pre, res, w_post, o.
  split; [exact Hs|]. split; [exact Ho|]. cbv zeta. rewrite Hw.
  unfold record_bound_convergence.
  split; [destruct (sense o); destruct (bounds_converged _); reflexivity|].
  destruct (sense o); destruct (bounds_converged _);
    cbn [solve_data on_data record_fixed_bound set_LB set_UB
         set_LB_progress set_UB_progress set_termination_condition
         LB UB LB_progress UB_progress];
    split;
    first [apply py_max_in | apply py_min_in
          | apply (proj1 (py_max_upper _ _))
          | apply (proj1 (py_min_lower _ _))].
Qed.

Lemma corrected_bound_is_attained_witness :
  In (LB (solve_data (world Scenario.fixed_end))) [3; 1] /\
  3 <= LB (solve_data (world Scenario.fixed_end)).
Proof.
  destruct (@corrected_bound_is_attained Scenario.env_optimal true
              (Scenario.start Scenario.world0) Scenario.fixed_end eq_refl)
    as (args & w_pre & res & w_post & o & Hs & Ho & Hwm & Hrec).
  rewrite <- Hwm in Ho. simpl in Ho. injection Ho as <-.
  simpl in Hs. injection Hs as <- <-.
  cbv zeta in Hrec. cbn [sense] in Hrec.
  destruct Hrec as [_ Hle]. split; [|exact Hle].
  left. reflexivity.
Defined.



(** * Rounding in the cycling check *)

Lemma py_round_near (q : Q) (z : Z) : near q z -> py_round q = z.
Proof.
  unfold near, py_round. intros [Hlo Hhi].
  pose proof (Qfloor_le q) as Hf1. pose proof (Qlt_floor q) as Hf2.
  assert (H1 : inject_Z z - (1 # 2) < inject_Z (Qfloor q + 1))
    by (eapply Qlt_trans; eassumption).
  assert (H2 : inject_Z (Qfloor q) < inject_Z z + (1 # 2))
    by (eapply Qle_lt_trans; eassumption).
  assert (Hcases : Qfloor q = z \/ Qfloor q = (z - 1)%Z).
  { unfold Qlt in H1, H2. simpl in H1, H2. lia. }
  destruct Hcases as [Hf|Hf]; rewrite Hf in *.
  - assert (Hlt : Qcompare (q - inject_Z z) (1 # 2) = Lt)
      by (rewrite <- Qlt_alt; lra).
    rewrite Hlt. reflexivity.
  - assert (Heq : inject_Z (z - 1) == inject_Z z - 1)
      by (unfold Qeq; simpl; lia).
    assert (Hgt : Qcompare (q - inject_Z (z - 1)) (1 # 2) = Gt)
      by (rewrite <- Qgt_alt; lra).
    rewrite Hgt. lia.
Qed.

(** X16: the cycling check looks at the integer variables only and is blind
    to solver noise: two master solutions in which the same variables are
    integer, and in which each integer variable lies within one half of the
    same integer, give the same list of rounded values, whatever their
    continuous variables are. *)
Theorem rounded_integer_values_stable (vars vars' : list Var) :
  Forall2 same_integer_part vars vars' ->
  rounded_integer_values vars = rounded_integer_values vars'.
Proof.
  unfold rounded_integer_values.
  induction 1 as [|v v' l l' [Hflag Hnear] _ IH]; [reflexivity|].
  simpl. rewrite <- Hflag. destruct (is_integer v) eqn:Hi.
  - destruct (Hnear eq_refl) as (z & Hz & Hz').
    simpl. rewrite (py_round_near Hz), (py_round_near Hz'), IH.
    reflexivity.
  - exact IH.
Qed.

Lemma near_19_2 : near (19 # 10) 2.
Proof. unfold near, Qlt; simpl; lia. Qed.

Lemma near_21_2 : near (21 # 10) 2.
Proof. unfold near, Qlt; simpl; lia. Qed.

Lemma near_31_3 : near (31 # 10) 3.
Proof. unfold near, Qlt; simpl; lia. Qed.

Lemma near_29_3 : near (29 # 10) 3.
Proof. unfold near, Qlt; simpl; lia. Qed.

Lemma rounded_integer_values_stable_witness :
  rounded_integer_values Cases.vars_a = rounded_integer_values Cases.vars_b.
Proof.
  apply rounded_integer_values_stable.
  repeat constructor; simpl; try discriminate; intros _.
  - exists 2%Z. split; [exact near_19_2 | exact near_21_2].
  - exists 3%Z. split; [exact near_31_3 | exact near_29_3].
Defined.

(** * How the loop ends *)

(** X17: when iterations are left on entry and the collaborators called
    after the second termination check leave [mip_iter] below
    [iteration_limit], a loop that ends without an exception has ended by
    [break], and either one of [optimal], [maxIterations], [maxTimeLimit] and
    [feasible] is recorded as termination condition, or the last master
    problem was infeasible (its solve and the infeasible handler are the last
    two calls, and [last_iter_cuts] is true). *)
Theorem loop_end_records_condition
    (E : Collaborators) (fuel : nat) (m m' : Machine)
    (ex : loop_exit) (l : option bool) :
  kept_by_NLP_side E (fun w => loop_guard w = true) ->
  (mip_iter (solve_data (world m)) < iteration_limit (config (world m)))%Z ->
  main_loop E fuel m = Some (Ok (ex, l) m') ->
  ex = BreakExit /\
  (stop_recorded (world m') \/
   (l = Some true /\
    exists tr, trace m' = tr ++ [ev_solve_OA_master;
                                 ev_handle_master_mip_infeasible])).
Proof.
  intros Hside Hleft Hloop. unfold main_loop in Hloop.
  destruct ex.
  - pose proof (while_loop_guard_exit E _ _ _ Hloop) as [_ G].
    apply (while_loop_guard_exit_at_entry Hside) in Hloop. subst m'.
    unfold loop_guard in G. apply Z.ltb_ge in G. lia.
  - split; [reflexivity|].
    apply while_loop_break_inv in Hloop.
    destruct Hloop as (n & m0 & _ & _ & _ & Hi).
    apply iteration_break_shape in Hi.
    destruct Hi as [(_ & _ & Hrec)|[(Hl & Ht)|(_ & Hrec & _)]].
    + left; exact Hrec.
    + right. split; [exact Hl|]. exists (trace m0). exact Ht.
    + left; exact Hrec.
Qed.

Lemma loop_end_records_condition_witness :
  stop_recorded (world Scenario.nogood_loop_end) \/
  (Some false = Some true /\
   exists tr, trace Scenario.nogood_loop_end =
              tr ++ [ev_solve_OA_master; ev_handle_master_mip_infeasible]).
Proof.
  assert (Hleft : (mip_iter
                     (solve_data
                        (world (Scenario.start Scenario.world_nogood)))
                   < iteration_limit
                       (config
                          (world (Scenario.start Scenario.world_nogood))))%Z)
    by (simpl; lia).
  destruct (@loop_end_records_condition Scenario.env_optimal 5
              (Scenario.start Scenario.world_nogood)
              Scenario.nogood_loop_end BreakExit (Some false)
              env_optimal_NLP_side_keeps_guard Hleft eq_refl) as [_ H].
  exact H.
Defined.

(** * The bound correction, step by step *)

Section BoundFixSteps.

Variable E : Collaborators.

Lemma deactivate_returns m m_d :
  deactivate_last_integer_cut m = Ok tt m_d ->
  let cuts := integer_cuts (solve_data (world m)) in
  cuts <> [] /\
  integer_cuts (solve_data (world m_d)) = removelast cuts ++ [false] /\
  trace m_d = trace m ++ [ev_deactivate_integer_cut (List.length cuts)].
Proof.
  unfold deactivate_last_integer_cut. cbv zeta.
  destruct (integer_cuts (solve_data (world m))) as [|c cs]; [discriminate|].
  intros H; inversion H; subst. cbn [world trace].
  split; [discriminate|]. split; reflexivity.
Qed.

Lemma make_mip_args_returns m args m_a :
  make_mip_args m = Ok args m_a ->
  solve_data (world m_a) = solve_data (world m) /\ trace m_a = trace m.
Proof.
  unfold make_mip_args. intros H.
  repeat break_match; inversion H; subst; split; reflexivity.
Qed.

Lemma resolve_master_steps m m' :
  resolve_master E m = Ok tt m' ->
  exists m_d m_i m_a args res w_post o,
    deactivate_last_integer_cut m = Ok tt m_d /\
    (if is_persistent E (mip_solver (config (world m_d)))
     then call ev_set_instance (set_instance E) m_d = Ok tt m_i
     else m_i = m_d) /\
    make_mip_args m_i = Ok args m_a /\
    masteropt_solve E args (world m_a) = Returns res w_post /\
    first_active (working_model (solve_data w_post)) = Some o /\
    world m' =
      record_bound_convergence
        (on_data (record_fixed_bound (sense o) res) w_post) /\
    trace m' = trace m_a ++ [ev_masteropt_solve args].
Proof.
  unfold resolve_master. unfold bind at 1.
  destruct (deactivate_last_integer_cut m) as [[] m_d|] eqn:Hd;
    [|discriminate].
  unfold bind at 1. unfold gets at 1. unfold bind at 1.
  destruct (is_persistent E (mip_solver (config (world m_d)))) eqn:Hp.
  - destruct (call ev_set_instance (set_instance E) m_d) as [[] m_i|] eqn:Hi;
      [|discriminate].
    unfold bind at 1.
    destruct (make_mip_args m_i) as [args m_a|] eqn:Ha; [|discriminate].
    unfold bind at 1. unfold call at 1.
    destruct (masteropt_solve E args (world m_a)) as [res w_post|] eqn:Hs;
      [|discriminate].
    unfold_monad. cbn [world trace].
    destruct (first_active (working_model (solve_data w_post))) as [o|] eqn:Ho;
      [|discriminate].
    intros H; inversion H; subst.
    exists m_d, m_i, m_a, args, res, w_post, o.
    rewrite Hp. repeat split; assumption || reflexivity.
  - unfold ret at 1. unfold bind at 1.
    destruct (make_mip_args m_d) as [args m_a|] eqn:Ha; [|discriminate].
    unfold bind at 1. unfold call at 1.
    destruct (masteropt_solve E args (world m_a)) as [res w_post|] eqn:Hs;
      [|discriminate].
    unfold_monad. cbn [world trace].
    destruct (first_active (working_model (solve_data w_post))) as [o|] eqn:Ho;
      [|discriminate].
    intros H; inversion H; subst.
    exists m_d, m_d, m_a, args, res, w_post, o.
    rewrite Hp. repeat split; assumption || reflexivity.
Qed.

Lemma NLP_stage_steps m m_n :
  (r <- call ev_solve_NLP_subproblem (solve_NLP_subproblem E) ;;
   handle_NLP_result E (fst r) (snd r)) m = Ok tt m_n ->
  exists y nres w_n,
    solve_NLP_subproblem E (world m) = Returns (y, nres) w_n /\
    snd (NLP_handler_call E y nres) w_n = Returns tt (world m_n) /\
    trace m_n = trace m ++ [ev_solve_NLP_subproblem;
                            fst (NLP_handler_call E y nres)].
Proof.
  unfold bind, call. intros H.
  destruct (solve_NLP_subproblem E (world m)) as [[y nres] w_n|];
    [|discriminate].
  cbn [fst snd] in H. rewrite handle_NLP_result_call in H.
  unfold call in H. cbn [world trace] in H.
  destruct (snd (NLP_handler_call E y nres) w_n) as [[] w_h|] eqn:Hh;
    inversion H; subst.
  exists y, nres, w_n. split; [reflexivity|]. split; [exact Hh|].
  cbn [trace]. rewrite <- app_assoc. reflexivity.
Qed.

(** The machine in which [bound_fix] reaches the deactivation of the cut. *)
Lemma bound_fix_steps b m m' :
  bound_fix E b m = Ok tt m' ->
  exists m_n,
    (if b then
       m_n = mkMachine (on_config (set_zero_tolerance (1 # 10000)) (world m))
                       (trace m)
     else
       exists y nres w_n,
         solve_NLP_subproblem E
           (on_config (set_zero_tolerance (1 # 10000)) (world m))
           = Returns (y, nres) w_n /\
         snd (NLP_handler_call E y nres) w_n = Returns tt (world m_n) /\
         trace m_n = trace m ++ [ev_solve_NLP_subproblem;
                                 fst (NLP_handler_call E y nres)]) /\
    resolve_master E m_n = Ok tt m'.
Proof.
  unfold bound_fix. unfold bind at 1. unfold modify at 1.
  unfold bind at 1. destruct b; cbn [negb].
  - unfold ret at 1. intros H. eexists. split; [reflexivity | exact H].
  - set (m_z := mkMachine _ (trace m)).
    destruct ((r <- call ev_solve_NLP_subproblem (solve_NLP_subproblem E) ;;
               handle_NLP_result E (fst r) (snd r)) m_z)
      as [[] m_n|] eqn:Hn; [|discriminate].
    intros H. exists m_n. split; [|exact H].
    apply NLP_stage_steps in Hn. exact Hn.
Qed.

End BoundFixSteps.

(** C6, amended: when [MindtPy_iteration_loop] returns, the bound-correction
    pass has been performed after the loop if and only if [add_nogood_cuts]
    is set, whatever [last_iter_cuts] is; without [add_nogood_cuts] nothing
    follows the loop.  The pass is this: [last_iter_cuts] decides only
    whether the NLP subproblem is solved and handled first, which happens
    when it is false; then the last entry of the integer cuts is deactivated
    and no other; the master problem is solved exactly once more, on the
    model with that cut off; and for a minimisation [LB] becomes the maximum
    of the reported lower bound and of all recorded entries but the last and
    is appended to [LB_progress], for a maximisation [UB] the minimum of the
    reported upper bound and of the entries of [UB_progress] but the last,
    appended to [UB_progress]. *)
Theorem bound_correction_iff_add_nogood_cuts
    (E : Collaborators) (fuel : nat) (m m1 m2 : Machine)
    (ex : loop_exit) (l : option bool) :
  main_loop E fuel m = Some (Ok (ex, l) m1) ->
  MindtPy_iteration_loop E fuel m = Some (Ok tt m2) ->
  let nogood := add_nogood_cuts (config (world m1)) in
  exists post,
    trace m2 = trace m1 ++ post /\
    bound_correction_performed post = nogood /\
    (nogood = false -> m2 = m1) /\
    (nogood = true ->
     exists b m_n m_d m_i m_a args res w_post o,
       l = Some b /\
       NLP_subproblem_solved post = negb b /\
       (if b then
          m_n = mkMachine
                  (on_config (set_zero_tolerance (1 # 10000)) (world m1))
                  (trace m1)
        else
          exists y nres w_n,
            solve_NLP_subproblem E
              (on_config (set_zero_tolerance (1 # 10000)) (world m1))
              = Returns (y, nres) w_n /\
            snd (NLP_handler_call E y nres) w_n = Returns tt (world m_n) /\
            trace m_n = trace m1 ++ [ev_solve_NLP_subproblem;
                                     fst (NLP_handler_call E y nres)]) /\
       let cuts := integer_cuts (solve_data (world m_n)) in
       cuts <> [] /\
       integer_cuts (solve_data (world m_d)) = removelast cuts ++ [false] /\
       trace m_d = trace m_n ++ [ev_deactivate_integer_cut (List.length cuts)]
       /\
       (if is_persistent E (mip_solver (config (world m_d)))
        then call ev_set_instance (set_instance E) m_d = Ok tt m_i
        else m_i = m_d /\
             integer_cuts (solve_data (world m_a))
               = removelast cuts ++ [false]) /\
       make_mip_args m_i = Ok args m_a /\
       masteropt_solve E args (world m_a) = Returns res w_post /\
       trace m2 = trace m_a ++ [ev_masteropt_solve args] /\
       first_active (working_model (solve_data w_post)) = Some o /\
       let before := solve_data w_post in
       let after := solve_data (world m2) in
       match sense o with
       | minimize =>
           LB after = py_max (problem_lower_bound res)
                             (removelast (LB_progress before)) /\
           LB_progress after = LB_progress before ++ [LB after]
       | maximize =>
           UB after = py_min (problem_upper_bound res)
                             (removelast (UB_progress before)) /\
           UB_progress after = UB_progress before ++ [UB after]
       end).
Proof.
  intros Hloop Hrun nogood.
  unfold MindtPy_iteration_loop in Hrun.
  destruct (first_active (working_model (solve_data (world m))));
    [|discriminate].
  rewrite Hloop in Hrun. unfold after_loop in Hrun. unfold_monad.
  fold nogood in Hrun. destruct nogood eqn:Hn.
  - destruct l as [b|]; [|discriminate].
    inversion Hrun as [Hfix]. pose proof Hfix as Hfix'.
    apply bound_fix_returns in Hfix.
    destruct Hfix as (args0 & w_pre0 & res0 & w_post0 & obj0 & post
                      & _ & _ & _ & Ht & Hp & Hnlp).
    exists post. split; [exact Ht|]. split; [exact Hp|].
    split; [discriminate|]. intros _.
    apply bound_fix_steps in Hfix'. destruct Hfix' as (m_n & Hstage & Hres).
    apply resolve_master_steps in Hres.
    destruct Hres as (m_d & m_i & m_a & args & res & w_post & obj
                      & Hd & Hi & Ha & Hs & Ho & Hw & Htr).
    apply deactivate_returns in Hd. cbv zeta in Hd.
    destruct Hd as (Hne & Hcuts & Htd).
    exists b, m_n, m_d, m_i, m_a, args, res, w_post, obj.
    split; [reflexivity|]. split; [exact Hnlp|]. split; [exact Hstage|].
    cbv zeta. split; [exact Hne|]. split; [exact Hcuts|].
    split; [exact Htd|]. split.
    { destruct (is_persistent E (mip_solver (config (world m_d))));
        [exact Hi|]. split; [exact Hi|]. subst m_i.
      apply make_mip_args_returns in Ha. destruct Ha as [Hsd _].
      rewrite Hsd. exact Hcuts. }
    split; [exact Ha|]. split; [exact Hs|]. split; [exact Htr|].
    split; [exact Ho|]. rewrite Hw. unfold record_bound_convergence.
    destruct (sense obj); destruct (bounds_converged _); cbn;
      split; reflexivity.
  - inversion Hrun; subst. exists []. rewrite app_nil_r.
    split; [reflexivity|]. split; [reflexivity|].
    split; [reflexivity|]. discriminate.
Qed.

Lemma bound_correction_iff_add_nogood_cuts_witness :
  exists post,
    trace Scenario.nogood_run_end = trace Scenario.nogood_loop_end ++ post /\
    bound_correction_performed post = true /\
    NLP_subproblem_solved post = true /\
    exists cuts m_d,
      cuts <> [] /\
      integer_cuts (solve_data (world m_d)) = removelast cuts ++ [false].
Proof.
  destruct (@bound_correction_iff_add_nogood_cuts Scenario.env_optimal 5
              (Scenario.start Scenario.world_nogood)
              Scenario.nogood_loop_end Scenario.nogood_run_end
              BreakExit (Some false) eq_refl eq_refl)
    as (post & Ht & Hp & _ & Hn).
  exists post. split; [exact Ht|]. split; [exact Hp|].
  destruct (Hn eq_refl)
    as (b & m_n & m_d & m_i & m_a & args & res & w_post & o
        & Hb & Hs & _ & Hne & Hcuts & _).
  injection Hb as <-. split; [exact Hs|].
  exists (integer_cuts (solve_data (world m_n))), m_d.
  split; [exact Hne | exact Hcuts].
Defined.

(** * The progress lists through the main loop *)

Section KeepsWhole.

Variable E : Collaborators.
Variable P : World -> Prop.
Hypothesis P_insensitive : loop_insensitive P.
Hypothesis P_kept : kept_by_collaborators E P.




End KeepsWhole.










